(** * qryn-client: the Loki client (src/clients/loki.js)

    A shallow embedding of [Loki.push], the [Read] operations and
    [Loki.parseLogs], with the part of the JavaScript runtime they call
    (truthiness, [ToString], [parseInt], [JSON.parse], [Date],
    [URLSearchParams]), and the properties of the specification proved
    or refuted on it. *)

From Stdlib Require Import ZArith Floats String Ascii List Bool Lia.
From stdpp Require Import base option list strings gmap.
Import ListNotations.

Local Open Scope Z_scope.
Local Open Scope string_scope.
Local Open Scope list_scope.

Set Warnings "-register-all".

(** ** JavaScript values *)

(** Heap addresses of class instances. *)
Definition loc := nat.

(** A JavaScript string is kept as the bytes of its UTF-8 encoding; a
    number is an IEEE binary64, as in the language.  [VRef] is a reference
    to a class instance living in the heap of the caller, [VNative] a
    built-in function reached through a prototype (the only one the code
    can meet is [Array.prototype.values]). *)
Inductive jsval : Type :=
| VUndefined
| VNull
| VBool (b : bool)
| VNum (x : float)
| VStr (s : string)
| VArr (elems : list jsval)
| VObj (props : list (string * jsval))
| VRef (l : loc)
| VNative (name : string).

Arguments VRef l%_nat.

Module JS.

(** *** Numbers *)

(** The double nearest to an integer (ties to even). *)
Definition of_Z (z : Z) : float :=
  SF2Prim (binary_normalize prec emax z 0%Z false).

(** The double nearest to [m / d], for [0 < m] and [0 < d]: the quotient is
    taken with 64 bits more than [d] has and a sticky last bit, then rounded
    once. *)
Definition of_ratio (neg : bool) (m d : positive) : float :=
  let s := (Z.log2 (Zpos d) + 64)%Z in
  let n := Z.shiftl (Zpos m) s in
  let q := (n / Zpos d)%Z in
  let sticky := (if n mod Zpos d =? 0 then 0 else 1)%Z in
  match (2 * q + sticky)%Z with
  | Zpos p => SF2Prim (binary_round prec emax neg p (- s - 1)%Z)
  | _ => if neg then PrimFloat.neg_zero else PrimFloat.zero
  end.

(** The double nearest to [m * 10^e]. *)
Definition of_decimal (neg : bool) (m : Z) (e : Z) : float :=
  match m with
  | Zpos p =>
      match e with
      | Zneg k => of_ratio neg p (Pos.pow 10 k)
      | _ => SF2Prim (binary_round prec emax neg (p * Z.to_pos (10 ^ e)) 0%Z)
      end
  | _ => if neg then PrimFloat.neg_zero else PrimFloat.zero
  end.

Definition is_NaN (x : float) : bool := negb (PrimFloat.eqb x x).

(** [ToIntegerOrInfinity] on a finite number: truncation towards zero. *)
Definition truncate (x : float) : option Z :=
  match Prim2SF x with
  | S754_zero _ => Some 0
  | S754_finite s m e =>
      let a := match e with
               | Zneg k => Z.shiftr (Zpos m) (Zpos k)
               | _ => Z.shiftl (Zpos m) e
               end in
      Some (if s then - a else a)
  | _ => None
  end.

(** *** ToBoolean *)

Definition ToBoolean (v : jsval) : bool :=
  match v with
  | VUndefined | VNull => false
  | VBool b => b
  | VNum x => negb (PrimFloat.eqb x 0 || is_NaN x)
  | VStr s => negb (String.eqb s "")
  | VArr _ | VObj _ | VRef _ | VNative _ => true
  end.

Definition isArray (v : jsval) : bool :=
  match v with VArr _ => true | _ => false end.

(** [v === 'text'] *)
Definition is_string (v : jsval) (text : string) : bool :=
  match v with VStr s => String.eqb s text | _ => false end.

(** *** Strings *)

Definition byte (n : Z) : ascii := ascii_of_N (Z.to_N n).
Definition code (c : ascii) : Z := Z.of_N (N_of_ascii c).

Fixpoint bytes (l : list Z) : string :=
  match l with
  | [] => ""
  | n :: l' => String (byte n) (bytes l')
  end.

Fixpoint strip_prefix (p s : string) : option string :=
  match p, s with
  | EmptyString, _ => Some s
  | String a p', String b s' => if Ascii.eqb a b then strip_prefix p' s' else None
  | String _ _, EmptyString => None
  end.

Fixpoint repeat_char (c : ascii) (n : nat) : string :=
  match n with
  | O => ""
  | S n' => String c (repeat_char c n')
  end.

Fixpoint decimal_aux (fuel : nat) (n : Z) (acc : string) : string :=
  let acc' := String (byte (48 + n mod 10)) acc in
  match fuel with
  | O => acc'
  | S f => if (n / 10 =? 0)%Z then acc' else decimal_aux f (n / 10) acc'
  end.

(** The decimal digits of a natural number. *)
Definition decimal (n : Z) : string := decimal_aux (Z.to_nat (Z.log2 n)) n "".

(** The digits left-padded with zeros to [w] characters. *)
Definition pad (w : nat) (n : Z) : string :=
  let d := decimal n in
  repeat_char "0" (w - String.length d) +:+ d.

(** The UTF-8 (generalised, so a lone surrogate has three bytes) encoding
    of a code point. *)
Definition utf8 (cp : Z) : list ascii :=
  if (cp <? 128)%Z then [byte cp]
  else if (cp <? 2048)%Z then
    [byte (192 + cp / 64); byte (128 + cp mod 64)]
  else if (cp <? 65536)%Z then
    [byte (224 + cp / 4096); byte (128 + (cp / 64) mod 64); byte (128 + cp mod 64)]
  else
    [byte (240 + cp / 262144); byte (128 + (cp / 4096) mod 64);
     byte (128 + (cp / 64) mod 64); byte (128 + cp mod 64)].

(** *** Number::toString *)

(** [n] with [10^(n-1) <= num/den < 10^n], for a positive rational. *)
Fixpoint small_magnitude (fuel : nat) (num den : Z) (j : Z) : Z :=
  match fuel with
  | O => 1 - j
  | S f => if (den <=? num * 10)%Z then 1 - j
           else small_magnitude f (num * 10) den (j + 1)
  end.

Definition magnitude (num den : Z) : Z :=
  if (den <=? num)%Z then Z.of_nat (String.length (decimal (num / den)))
  else small_magnitude 400 num den 1.

(** The shortest digits [s] and exponent [p] with [s * 10^p] rounding to
    [x = num/den]; of two candidates of the same length the closer one, and
    the even one when they are as close. *)
Fixpoint shortest (fuel : nat) (x : float) (num den n0 k : Z) : Z * Z :=
  let p := (n0 - k)%Z in
  let '(a, b) := if (0 <=? p)%Z then (num, den * 10 ^ p)%Z
                 else (num * 10 ^ (- p), den)%Z in
  let lo := (a / b)%Z in
  let hi := (lo + 1)%Z in
  let ok s := PrimFloat.eqb (of_decimal false s p) x in
  let r := (2 * (a mod b))%Z in
  let nearest := if (r <? b)%Z then lo else if (b <? r)%Z then hi
                 else if Z.even lo then lo else hi in
  match fuel with
  | O => (lo, p)
  | S f =>
      match ok lo, ok hi with
      | true, true => (nearest, p)
      | true, false => (lo, p)
      | false, true => (hi, p)
      | false, false => shortest f x num den n0 (k + 1)
      end
  end.

Fixpoint strip_zeros (fuel : nat) (s p : Z) : Z * Z :=
  match fuel with
  | O => (s, p)
  | S f => if (s mod 10 =? 0)%Z then strip_zeros f (s / 10) (p + 1) else (s, p)
  end.

Definition positive_to_string (x : float) (m : positive) (e : Z) : string :=
  let '(num, den) := match e with
                     | Zneg k => (Zpos m, Z.shiftl 1 (Zpos k))
                     | _ => (Z.shiftl (Zpos m) e, 1%Z)
                     end in
  let '(s, p) := shortest 17 x num den (magnitude num den) 1 in
  let '(s, p) := strip_zeros 20 s p in
  let ds := decimal s in
  let k := String.length ds in
  let n := (p + Z.of_nat k)%Z in
  if ((Z.of_nat k <=? n) && (n <=? 21))%Z then
    ds +:+ repeat_char "0" (Z.to_nat n - k)
  else if ((0 <? n) && (n <=? 21))%Z then
    substring 0 (Z.to_nat n) ds +:+ "." +:+ substring (Z.to_nat n) (k - Z.to_nat n) ds
  else if ((-6 <? n) && (n <=? 0))%Z then
    "0." +:+ repeat_char "0" (Z.to_nat (- n)) +:+ ds
  else
    let e' := (n - 1)%Z in
    let ex := (if (e' <? 0)%Z then "-" else "+") +:+ decimal (Z.abs e') in
    match ds with
    | String d EmptyString => String d ("e" +:+ ex)
    | String d rest => String d ("." +:+ rest +:+ "e" +:+ ex)
    | EmptyString => ""
    end.

Definition number_to_string (x : float) : string :=
  match Prim2SF x with
  | S754_nan => "NaN"
  | S754_zero _ => "0"
  | S754_infinity false => "Infinity"
  | S754_infinity true => "-Infinity"
  | S754_finite sg m e =>
      (if sg then "-" else "") +:+ positive_to_string (PrimFloat.abs x) m e
  end.

(** *** ToString *)

Fixpoint ToString (v : jsval) : string :=
  match v with
  | VUndefined => "undefined"
  | VNull => "null"
  | VBool true => "true"
  | VBool false => "false"
  | VNum x => number_to_string x
  | VStr s => s
  | VArr elems =>
      (* Array.prototype.join: undefined and null elements print as "" *)
      let item e := match e with
                    | VUndefined | VNull => ""
                    | _ => ToString e
                    end in
      (fix join (l : list jsval) : string :=
         match l with
         | [] => ""
         | [e] => item e
         | e :: l' => item e +:+ "," +:+ join l'
         end) elems
  | VObj _ | VRef _ => "[object Object]"
  | VNative name => "function " +:+ name +:+ "() { [native code] }"
  end.

(** *** parseInt *)

(** [WhiteSpace] and [LineTerminator] code points, in UTF-8. *)
Definition white_space : list string :=
  map bytes
    [[9]; [10]; [11]; [12]; [13]; [32]; [194; 160]; [225; 154; 128];
     [226; 128; 128]; [226; 128; 129]; [226; 128; 130]; [226; 128; 131];
     [226; 128; 132]; [226; 128; 133]; [226; 128; 134]; [226; 128; 135];
     [226; 128; 136]; [226; 128; 137]; [226; 128; 138]; [226; 128; 168];
     [226; 128; 169]; [226; 128; 175]; [226; 129; 159]; [227; 128; 128];
     [239; 187; 191]].

Fixpoint first_some {A B} (f : A -> option B) (l : list A) : option B :=
  match l with
  | [] => None
  | a :: l' => match f a with Some b => Some b | None => first_some f l' end
  end.

Fixpoint skip_white_space (fuel : nat) (s : string) : string :=
  match fuel with
  | O => s
  | S f => match first_some (fun w => strip_prefix w s) white_space with
           | Some s' => skip_white_space f s'
           | None => s
           end
  end.

Definition digit_value (radix : Z) (c : ascii) : option Z :=
  let n := code c in
  let d := if ((48 <=? n) && (n <=? 57))%Z then (n - 48)%Z
           else if ((97 <=? n) && (n <=? 122))%Z then (n - 87)%Z
           else if ((65 <=? n) && (n <=? 90))%Z then (n - 55)%Z
           else 36%Z in
  if (d <? radix)%Z then Some d else None.

(** The value of the longest prefix of digits, when there is one. *)
Fixpoint digits_prefix (radix : Z) (s : string) (acc : option Z) : option Z :=
  match s with
  | EmptyString => acc
  | String c s' =>
      match digit_value radix c with
      | Some d => digits_prefix radix s' (Some (default 0%Z acc * radix + d)%Z)
      | None => acc
      end
  end.

(** [parseInt(v)] with no radix argument. *)
Definition parseInt (v : jsval) : float :=
  let input := ToString v in
  let s := skip_white_space (String.length input) input in
  let '(neg, s) := match s with
                   | String "-" r => (true, r)
                   | String "+" r => (false, r)
                   | _ => (false, s)
                   end in
  let '(radix, s) := match s with
                     | String "0" (String "x" r) | String "0" (String "X" r) => (16%Z, r)
                     | _ => (10%Z, s)
                     end in
  match digits_prefix radix s None with
  | None => nan
  | Some 0%Z => if neg then PrimFloat.neg_zero else PrimFloat.zero
  | Some n => of_Z (if neg then - n else n)
  end.

(** *** Date *)

(** A Date object is its time value: whole milliseconds since the epoch,
    or none for an Invalid Date. *)
Record Date : Type := mkDate { time_value : option Z }.

(** [new Date(x)] for a number [x]: TimeClip. *)
Definition new_Date (x : float) : Date :=
  if PrimFloat.leb (PrimFloat.abs x) 8.64e15 then mkDate (truncate x)
  else mkDate None.

(** Year, month and day of a day number counted from 1970-01-01. *)
Definition civil_from_days (z : Z) : Z * Z * Z :=
  let z := z + 719468 in
  let era := z / 146097 in
  let doe := z - era * 146097 in
  let yoe := (doe - doe / 1460 + doe / 36524 - doe / 146096) / 365 in
  let doy := doe - (365 * yoe + yoe / 4 - yoe / 100) in
  let mp := (5 * doy + 2) / 153 in
  let d := doy - (153 * mp + 2) / 5 + 1 in
  let m := if (mp <? 10)%Z then mp + 3 else mp - 9 in
  let y := yoe + era * 400 + (if (m <=? 2)%Z then 1 else 0) in
  (y, m, d).

Definition iso_string (t : Z) : string :=
  let '(y, m, d) := civil_from_days (t / 86400000) in
  let ms := (t mod 86400000)%Z in
  let year := if ((0 <=? y) && (y <=? 9999))%Z then pad 4 y
              else (if (y <? 0)%Z then "-" else "+") +:+ pad 6 (Z.abs y) in
  year +:+ "-" +:+ pad 2 m +:+ "-" +:+ pad 2 d +:+ "T" +:+
  pad 2 (ms / 3600000) +:+ ":" +:+ pad 2 ((ms / 60000) mod 60) +:+ ":" +:+
  pad 2 ((ms / 1000) mod 60) +:+ "." +:+ pad 3 (ms mod 1000) +:+ "Z".

(** *** URLSearchParams *)

(** The application/x-www-form-urlencoded byte serializer. *)
Definition hex_digit (n : Z) : ascii :=
  if (n <? 10)%Z then byte (48 + n) else byte (55 + n).

Fixpoint urlencode (s : string) : string :=
  match s with
  | EmptyString => ""
  | String c s' =>
      let n := code c in
      if ((48 <=? n) && (n <=? 57) || (65 <=? n) && (n <=? 90) ||
          (97 <=? n) && (n <=? 122) ||
          (n =? 42) || (n =? 45) || (n =? 46) || (n =? 95))%Z
      then String c (urlencode s')
      else if (n =? 32)%Z then String "+" (urlencode s')
      else String "%" (String (hex_digit (n / 16))
                         (String (hex_digit (n mod 16)) (urlencode s')))
  end.

(** Conversion to a USVString: a lone surrogate (bytes ED A0..BF xx of the
    generalised encoding) becomes U+FFFD. *)
Fixpoint to_usv (s : string) : string :=
  match s with
  | String a ((String b (String _ s')) as t) =>
      if ((code a =? 237) && (160 <=? code b))%Z
      then String (byte 239) (String (byte 191) (String (byte 189) (to_usv s')))
      else String a (to_usv t)
  | String a t => String a (to_usv t)
  | EmptyString => ""
  end.

(** A URLSearchParams object: its list of name-value pairs. *)
Definition URLSearchParams : Type := list (string * string).

(** [params.append(name, value)]: the value is converted to a string. *)
Definition append (params : URLSearchParams) (name : string) (value : jsval)
  : URLSearchParams :=
  params ++ [(to_usv name, to_usv (ToString value))].

Fixpoint params_toString (params : URLSearchParams) : string :=
  match params with
  | [] => ""
  | [(k, v)] => urlencode k +:+ "=" +:+ urlencode v
  | (k, v) :: rest => urlencode k +:+ "=" +:+ urlencode v +:+ "&" +:+ params_toString rest
  end.

(** *** JSON.parse *)

Fixpoint json_ws (s : string) : string :=
  match s with
  | String c s' =>
      if ((code c =? 9) || (code c =? 10) || (code c =? 13) || (code c =? 32))%Z
      then json_ws s' else s
  | EmptyString => s
  end.

Fixpoint take_digits (s : string) (acc : Z) (count : Z) : Z * Z * string :=
  match s with
  | String c s' =>
      if ((48 <=? code c) && (code c <=? 57))%Z
      then take_digits s' (acc * 10 + (code c - 48)) (count + 1)
      else (acc, count, s)
  | EmptyString => (acc, count, s)
  end.

(** A JSON number: [-? int frac? exp?], no leading zero in [int]. *)
Definition json_number (s : string) : option (float * string) :=
  let '(neg, s) := match s with String "-" r => (true, r) | _ => (false, s) end in
  let int_part := match s with
                  | String "0" r => Some (0%Z, r)
                  | _ => let '(n, count, r) := take_digits s 0 0 in
                         if (count =? 0)%Z then None else Some (n, r)
                  end in
  match int_part with
  | None => None
  | Some (n, s) =>
      let frac := match s with
                  | String "." r =>
                      let '(m, count, r') := take_digits r n 0 in
                      if (count =? 0)%Z then None else Some (m, count, r')
                  | _ => Some (n, 0%Z, s)
                  end in
      match frac with
      | None => None
      | Some (m, scale, s) =>
          let exponent :=
            match s with
            | String c r =>
                if ((code c =? 101) || (code c =? 69))%Z then
                  let '(eneg, r) := match r with
                                    | String "-" r' => (true, r')
                                    | String "+" r' => (false, r')
                                    | _ => (false, r)
                                    end in
                  let '(e, count, r') := take_digits r 0 0 in
                  if (count =? 0)%Z then None
                  else Some (if eneg then (- e)%Z else e, r')
                else Some (0%Z, s)
            | EmptyString => Some (0%Z, s)
            end in
          match exponent with
          | None => None
          | Some (e, s) => Some (of_decimal neg m (e - scale), s)
          end
      end
  end.

(** Four hexadecimal digits. *)
Definition hex4 (s : string) : option (Z * string) :=
  match s with
  | String a (String b (String c (String d r))) =>
      match digit_value 16 a, digit_value 16 b, digit_value 16 c, digit_value 16 d with
      | Some w, Some x, Some y, Some z => Some (((w * 16 + x) * 16 + y) * 16 + z, r)%Z
      | _, _, _, _ => None
      end
  | _ => None
  end.

Definition is_high_surrogate (u : Z) : bool := ((55296 <=? u) && (u <=? 56319))%Z.
Definition is_low_surrogate (u : Z) : bool := ((56320 <=? u) && (u <=? 57343))%Z.

(** The characters of a JSON string after its opening quote, up to the
    closing one; [pending] is a high surrogate read from an escape and not
    yet paired. *)
Fixpoint json_string (fuel : nat) (s : string) (pending : option Z) (acc : list ascii)
  : option (string * string) :=
  let flush := match pending with
               | Some h => rev (utf8 h) ++ acc
               | None => acc
               end in
  match fuel with
  | O => None
  | S f =>
      match s with
      | EmptyString => None
      | String c r =>
          if (code c =? 34)%Z then Some (string_of_list_ascii (rev flush), r)
          else if (code c <? 32)%Z then None
          else if (code c =? 92)%Z then
            match r with
            | String e r' =>
                let simple b := json_string f r' None (byte b :: flush) in
                if (code e =? 117)%Z then
                  match hex4 r' with
                  | None => None
                  | Some (u, r'') =>
                      match pending with
                      | Some h =>
                          if is_low_surrogate u
                          then json_string f r'' None
                                 (rev (utf8 (65536 + (h - 55296) * 1024 + (u - 56320))) ++ acc)
                          else if is_high_surrogate u
                          then json_string f r'' (Some u) flush
                          else json_string f r'' None (rev (utf8 u) ++ flush)
                      | None =>
                          if is_high_surrogate u
                          then json_string f r'' (Some u) acc
                          else json_string f r'' None (rev (utf8 u) ++ acc)
                      end
                  end
                else if (code e =? 34)%Z then simple 34%Z
                else if (code e =? 92)%Z then simple 92%Z
                else if (code e =? 47)%Z then simple 47%Z
                else if (code e =? 98)%Z then simple 8%Z
                else if (code e =? 102)%Z then simple 12%Z
                else if (code e =? 110)%Z then simple 10%Z
                else if (code e =? 114)%Z then simple 13%Z
                else if (code e =? 116)%Z then simple 9%Z
                else None
            | EmptyString => None
            end
          else json_string f r None (c :: flush)
      end
  end.

(** Integer-like keys (array indices) come first in an object, in
    ascending order; the other keys keep their order of creation. *)
Definition array_index (k : string) : option Z :=
  match k with
  | "0" => Some 0%Z
  | String c _ =>
      if ((49 <=? code c) && (code c <=? 57))%Z then
        let '(n, count, r) := take_digits k 0 0 in
        if String.eqb r "" && (n <=? 4294967294)%Z then Some n else None
      else None
  | EmptyString => None
  end.

Fixpoint replace_prop (k : string) (v : jsval) (props : list (string * jsval))
  : option (list (string * jsval)) :=
  match props with
  | [] => None
  | (k', v') :: rest =>
      if String.eqb k k' then Some ((k, v) :: rest)
      else match replace_prop k v rest with
           | Some rest' => Some ((k', v') :: rest')
           | None => None
           end
  end.

Fixpoint insert_index (i : Z) (k : string) (v : jsval) (props : list (string * jsval))
  : list (string * jsval) :=
  match props with
  | [] => [(k, v)]
  | (k', v') :: rest =>
      match array_index k' with
      | Some j => if (j <? i)%Z then (k', v') :: insert_index i k v rest
                  else (k, v) :: props
      | None => (k, v) :: props
      end
  end.

(** Defining the data property [k] of an object. *)
Definition define_prop (k : string) (v : jsval) (props : list (string * jsval))
  : list (string * jsval) :=
  match replace_prop k v props with
  | Some props' => props'
  | None => match array_index k with
            | Some i => insert_index i k v props
            | None => props ++ [(k, v)]
            end
  end.

Fixpoint json_value (fuel : nat) (s : string) : option (jsval * string) :=
  match fuel with
  | O => None
  | S f =>
      let elements :=
        fix elements (n : nat) (s : string) (acc : list jsval) : option (jsval * string) :=
          match n with
          | O => None
          | S n' =>
              match json_value f s with
              | None => None
              | Some (v, r) =>
                  match json_ws r with
                  | String "," r' => elements n' r' (v :: acc)
                  | String "]" r' => Some (VArr (rev (v :: acc)), r')
                  | _ => None
                  end
              end
          end in
      let members :=
        fix members (n : nat) (s : string) (acc : list (string * jsval)) : option (jsval * string) :=
          match n with
          | O => None
          | S n' =>
              match json_ws s with
              | String q r =>
                  if (code q =? 34)%Z then
                    match json_string (String.length r) r None [] with
                    | None => None
                    | Some (k, r1) =>
                        match json_ws r1 with
                        | String ":" r2 =>
                            match json_value f r2 with
                            | None => None
                            | Some (v, r3) =>
                                let acc' := define_prop k v acc in
                                match json_ws r3 with
                                | String "," r4 => members n' r4 acc'
                                | String "}" r4 => Some (VObj acc', r4)
                                | _ => None
                                end
                            end
                        | _ => None
                        end
                    end
                  else None
              | EmptyString => None
              end
          end in
      match json_ws s with
      | String "n" (String "u" (String "l" (String "l" r))) => Some (VNull, r)
      | String "t" (String "r" (String "u" (String "e" r))) => Some (VBool true, r)
      | String "f" (String "a" (String "l" (String "s" (String "e" r)))) => Some (VBool false, r)
      | String "[" r =>
          match json_ws r with
          | String "]" r' => Some (VArr [], r')
          | _ => elements (String.length r) r []
          end
      | String "{" r =>
          match json_ws r with
          | String "}" r' => Some (VObj [], r')
          | _ => members (String.length r) r []
          end
      | String c r =>
          if (code c =? 34)%Z then
            match json_string (String.length r) r None [] with
            | Some (str, r') => Some (VStr str, r')
            | None => None
            end
          else match json_number (String c r) with
               | Some (x, r') => Some (VNum x, r')
               | None => None
               end
      | EmptyString => None
      end
  end.

(** [JSON.parse(v)]: the argument is converted to a string and read as one
    JSON text; [None] stands for the SyntaxError. *)
Definition JSON_parse (v : jsval) : option jsval :=
  let text := ToString v in
  match json_value (S (String.length text)) text with
  | Some (r, rest) => if String.eqb (json_ws rest) "" then Some r else None
  | None => None
  end.

(** *** JSON.stringify *)

(** The text [JSON.stringify(v)] is kept symbolic: a request body is known
    by the value it serialises. *)
Inductive json_text : Type := JSON_stringify (v : jsval).

End JS.

(** ** Errors and completions *)

(** Modelled from the spec: the class [GigapipeError] of src/types is not
    part of the sources at hand.  Section 6 describes it as a classified
    error exposing a message and an optional status code, and loki.js
    builds it as [new GigapipeError(message, statusCode)]. *)
Record GigapipeError : Type := mkGigapipeError {
  message : string;
  statusCode : jsval
}.

(** What can be thrown: an instance of [GigapipeError], or any other error
    object, known by its name and its [message] and [statusCode]
    properties. *)
Inductive exn : Type :=
| Gigapipe (e : GigapipeError)
| ErrorObject (name : string) (msg : jsval) (status : jsval).

(** The errors of the runtime; their texts are the engine's and carry no
    meaning here. *)
Definition TypeError (msg : string) : exn := ErrorObject "TypeError" (VStr msg) VUndefined.
Definition RangeError (msg : string) : exn := ErrorObject "RangeError" (VStr msg) VUndefined.

(** Modelled from the spec: the error kinds of section 7.  The code has one
    error class and tells the kinds apart only by the guard that throws;
    [kind] reads the kind off the message of that guard, following sections
    4.2 and 4.3 (every other [GigapipeError] comes from the transport
    boundary). *)
Inductive ErrorKind : Type := MissingParameter | InvalidInput | TransportFailure.

(** Modelled from the spec: the kind of an error, by the table of the
    guards of loki.js (sections 4.2 and 4.3). *)
Definition kind (e : GigapipeError) : ErrorKind :=
  if String.eqb (message e) "Query parameter is required" then MissingParameter
  else if String.eqb (message e) "Start and end timestamps are required" then MissingParameter
  else if String.eqb (message e) "Label name parameter is required" then MissingParameter
  else if String.eqb (message e) "Match parameter is required" then MissingParameter
  else if String.eqb (message e) "Match must be a string or array of strings" then InvalidInput
  else if String.eqb (message e) "Streams must be an array of Stream instances" then InvalidInput
  else TransportFailure.

(** The outcome of evaluating a statement, and of an async function: a
    value (the promise resolves) or a thrown error (it rejects). *)
Inductive completion (A : Type) : Type :=
| Normal (a : A)
| Throw (e : exn).
Arguments Normal {A} a.
Arguments Throw {A} e.

#[export] Instance completion_ret : MRet completion := @Normal.
#[export] Instance completion_bind : MBind completion := fun A B f m =>
  match m with
  | Normal a => f a
  | Throw e => Throw e
  end.

Module Prop_access.

(** [v.k] on data: a plain object has its own properties; an array has its
    elements, [length] and, of the names loki.js reads, the function
    [values] of its prototype; a string has [length]; a class instance
    keeps its fields in the heap and has none of the names read from
    data; reading from undefined or null throws. *)
Fixpoint own (props : list (string * jsval)) (k : string) : jsval :=
  match props with
  | [] => VUndefined
  | (k', v) :: rest => if String.eqb k k' then v else own rest k
  end.

(** [a[i]] on an array. *)
Definition index (elems : list jsval) (i : nat) : jsval := nth i elems VUndefined.

(** The number of UTF-16 code units of a string. *)
Fixpoint utf16_length (s : string) : Z :=
  match s with
  | EmptyString => 0
  | String c s' =>
      (if ((JS.code c <? 128) || (192 <=? JS.code c))%Z then 1 else 0)%Z +
      (if (240 <=? JS.code c)%Z then 1 else 0)%Z + utf16_length s'
  end.

Definition get (v : jsval) (k : string) : completion jsval :=
  match v with
  | VUndefined => Throw (TypeError "Cannot read properties of undefined")
  | VNull => Throw (TypeError "Cannot read properties of null")
  | VObj props => Normal (own props k)
  | VArr elems =>
      if String.eqb k "length" then Normal (VNum (JS.of_Z (Z.of_nat (length elems))))
      else if String.eqb k "values" then Normal (VNative "values")
      else match JS.array_index k with
           | Some i => Normal (index elems (Z.to_nat i))
           | None => Normal VUndefined
           end
  | VStr s =>
      if String.eqb k "length" then Normal (VNum (JS.of_Z (utf16_length s)))
      else Normal VUndefined
  | VBool _ | VNum _ | VRef _ | VNative _ => Normal VUndefined
  end.

(** [v?.k] *)
Definition get_opt (v : jsval) (k : string) : completion jsval :=
  match v with
  | VUndefined | VNull => Normal VUndefined
  | _ => get v k
  end.

(** The number of bytes of the UTF-8 character that starts with [c]. *)
Definition char_width (c : ascii) : nat :=
  if (JS.code c <? 192)%Z then 1 else if (JS.code c <? 224)%Z then 2
  else if (JS.code c <? 240)%Z then 3 else 4.

(** [const [, x] = v]: the second item of the iteration of [v].  Arrays and
    strings are iterable; the other values are not. *)
Definition second (v : jsval) : completion jsval :=
  match v with
  | VArr elems => Normal (index elems 1)
  | VStr (String c _ as s) =>
      let rest := substring (char_width c) (String.length s) s in
      match rest with
      | String d _ => Normal (VStr (substring 0 (char_width d) rest))
      | EmptyString => Normal VUndefined
      end
  | VStr EmptyString => Normal VUndefined
  | _ => Throw (TypeError "value is not iterable")
  end.

End Prop_access.

(** ** src/models: the Stream buffer *)

Module Models.

(** Modelled from the spec: the class [Stream] of src/models is not part of
    the sources at hand.  Sections 3 and 4.1 give a buffer a label set, an
    ordered sequence of pending entries (the field [entries] that
    [Loki.push] reads) and one of confirmed entries; an entry is a
    timestamp, a message and optional metadata. *)
Record Entry : Type := mkEntry {
  timestamp : jsval;
  message : jsval;
  metadata : option jsval
}.

(** Modelled from the spec: the buffer of section 3, with its label set,
    its pending entries and its confirmed entries. *)
Record Stream : Type := mkStream {
  labels : list (string * jsval);
  entries : list Entry;
  confirmed : list Entry
}.

(** Modelled from the spec: the wire form [[timestamp, message, metadata?]]
    of an entry. *)
Definition wire_entry (e : Entry) : jsval :=
  match metadata e with
  | Some m => VArr [timestamp e; message e; m]
  | None => VArr [timestamp e; message e]
  end.

(** Modelled from the spec: [append] adds an entry to the pending
    sequence and changes nothing else. *)
Definition append (s : Stream) (e : Entry) : Stream :=
  mkStream (labels s) (entries s ++ [e]) (confirmed s).

(** Modelled from the spec: [collect()] returns the wire shape
    [{ labels, entries }] of the pending entries and leaves the buffer as
    it is. *)
Definition collect (s : Stream) : jsval :=
  VObj [("labels", VObj (labels s)); ("entries", VArr (map wire_entry (entries s)))].

(** Modelled from the spec: [confirm()] moves the pending entries to the
    confirmed ones; it never raises. *)
Definition confirm (s : Stream) : Stream :=
  mkStream (labels s) [] (confirmed s ++ entries s).

(** Modelled from the spec: [undo()] leaves the pending entries pending and
    unconfirmed; it never raises. *)
Definition undo (s : Stream) : Stream := s.

End Models.

(** ** The world of a call: the caller's buffers and what was done *)

(** The second argument of [service.request]. *)
Record request_init : Type := mkInit {
  method : string;
  headers : list (string * jsval);
  body : option JS.json_text
}.

(** Method calls on buffers and calls of the transport, in the order in
    which they happen. *)
Inductive event : Type :=
| Collect (l : loc)
| Confirm (l : loc)
| Undo (l : loc)
| Request (path : string) (init : request_init).

(** The heap holds the instances of [Stream]; a reference outside of it is
    an object of another class. *)
Record world : Type := mkWorld {
  heap : gmap loc Models.Stream;
  trace : list event
}.

(** Statements that read and change the world and may throw. *)
Definition M (A : Type) : Type := world -> completion A * world.

#[export] Instance M_ret : MRet M := fun A a w => (Normal a, w).
#[export] Instance M_bind : MBind M := fun A B f m w =>
  match m w with
  | (Normal a, w') => f a w'
  | (Throw e, w') => (Throw e, w')
  end.

Definition throw {A} (e : exn) : M A := fun w => (Throw e, w).

Definition lift {A} (c : completion A) : M A := fun w => (c, w).

(** [try { m } catch (error) { handler error }], and [promise.catch]. *)
Definition try_catch {A} (m : M A) (handler : exn -> M A) : M A := fun w =>
  match m w with
  | (Normal a, w') => (Normal a, w')
  | (Throw e, w') => handler e w'
  end.

Definition emit (ev : event) : M unit := fun w =>
  (Normal tt, mkWorld (heap w) (trace w ++ [ev])).

Definition read_heap : M (gmap loc Models.Stream) := fun w => (Normal (heap w), w).

Definition update (l : loc) (f : Models.Stream -> Models.Stream) : M unit := fun w =>
  (Normal tt, mkWorld (alter f l (heap w)) (trace w)).

(** [a.forEach(f)] on an array. *)
Fixpoint forEach (f : jsval -> M unit) (elems : list jsval) : M unit :=
  match elems with
  | [] => mret tt
  | x :: rest => f x ;; forEach f rest
  end.

(** The transport: what [service.request(path, init)] settles to. *)
Definition service : Type := string -> request_init -> completion jsval.

(** [await service.request(path, init)] *)
Definition request (svc : service) (path : string) (init : request_init) : M jsval :=
  emit (Request path init) ;; lift (svc path init).

(** ** Method calls on a value that should be a Stream *)

(** [s instanceof Stream] *)
Definition instanceof_Stream (h : gmap loc Models.Stream) (s : jsval) : bool :=
  match s with
  | VRef l => bool_decide (is_Some (h !! l))
  | _ => false
  end.

Definition with_stream {A} (s : jsval) (k : loc -> Models.Stream -> M A) : M A :=
  h ← read_heap;
  match s with
  | VRef l => match h !! l with
              | Some st => k l st
              | None => throw (TypeError "not a function")
              end
  | _ => throw (TypeError "not a function")
  end.

(** [s.entries.length] *)
Definition entries_length (s : jsval) : M nat :=
  with_stream s (fun _ st => mret (length (Models.entries st))).

Definition collect (s : jsval) : M jsval :=
  with_stream s (fun l st => emit (Collect l) ;; mret (Models.collect st)).

Definition confirm (s : jsval) : M unit :=
  with_stream s (fun l _ => emit (Confirm l) ;; update l Models.confirm).

Definition undo (s : jsval) : M unit :=
  with_stream s (fun l _ => emit (Undo l) ;; update l Models.undo).

(** ** src/clients/loki.js *)

(** An options object: its own properties. *)
Definition object : Type := list (string * jsval).

(** [if (o.k) headers[name] = o.k] *)
Definition set_if (o : object) (k name : string) (headers : object) : object :=
  if JS.ToBoolean (Prop_access.own o k)
  then JS.define_prop name (Prop_access.own o k) headers
  else headers.

(** The handler every operation gives to its transport call: an error that
    is a [GigapipeError] is thrown again as it is, any other is wrapped. *)
Definition rethrow {A} (prefix : string) (error : exn) : M A :=
  match error with
  | Gigapipe e => throw (Gigapipe e)
  | ErrorObject _ msg status =>
      throw (Gigapipe (mkGigapipeError (prefix +:+ JS.ToString msg) status))
  end.

(** One record of [parseLogs]. *)
Module Log.

Record record : Type := mkRecord {
  timestamp : jsval;
  timestampMs : float;
  date : JS.Date;
  dateISO : string;
  message : jsval;
  labels : jsval
}.

End Log.

Abbreviation LogRecord := Log.record.
Abbreviation mkLogRecord := Log.mkRecord.

(** [date.toISOString()] *)
Definition toISOString (d : JS.Date) : completion string :=
  match JS.time_value d with
  | Some t => Normal (JS.iso_string t)
  | None => Throw (RangeError "Invalid time value")
  end.

(** [a.forEach(f)] where [f] appends to [logs]; a value that is not an
    array has no [forEach] to call. *)
Fixpoint each (f : jsval -> list LogRecord -> completion (list LogRecord))
  (elems : list jsval) (logs : list LogRecord) : completion (list LogRecord) :=
  match elems with
  | [] => Normal logs
  | x :: rest => logs' ← f x logs; each f rest logs'
  end.

Definition call_forEach (a : jsval)
  (f : jsval -> list LogRecord -> completion (list LogRecord))
  (logs : list LogRecord) : completion (list LogRecord) :=
  match a with
  | VArr elems => each f elems logs
  | _ => Throw (TypeError "forEach is not a function")
  end.

Module Loki.

(** [Loki.parseLogs]: the body of the callback given to
    [values.forEach] / [entries.forEach]; both branches of the source
    repeat it word for word, up to the property ([stream.stream] or
    [series.metric]) the labels are read from. *)
Definition parse_entry (owner : jsval) (key : string) (entry : jsval)
  (logs : list LogRecord) : completion (list LogRecord) :=
  match entry with
  | VArr elems =>
      if (length elems <? 2)%nat then Normal logs
      else
        let timestampNs := Prop_access.index elems 0 in
        let message := Prop_access.index elems 1 in
        let timestampMs := PrimFloat.div (JS.parseInt timestampNs) 1000000 in
        let date := JS.new_Date timestampMs in
        let parsedMessage := match JS.JSON_parse message with
                             | Some v => v
                             | None => message
                             end in
        iso ← toISOString date;
        labels ← Prop_access.get owner key;
        Normal (logs ++ [mkLogRecord timestampNs timestampMs date iso parsedMessage
                           (if JS.ToBoolean labels then labels else VObj [])])
  | _ => Normal logs
  end.

Definition parse_stream (stream : jsval) (logs : list LogRecord)
  : completion (list LogRecord) :=
  values ← Prop_access.get stream "values";
  if negb (JS.ToBoolean values) then Normal logs
  else call_forEach values (parse_entry stream "stream") logs.

Definition parse_bucket (series : jsval) (bucket : jsval) (logs : list LogRecord)
  : completion (list LogRecord) :=
  logEntries ← Prop_access.second bucket;
  let entries :=
    match logEntries with
    | VArr inner => if JS.isArray (Prop_access.index inner 0) then inner else [logEntries]
    | _ => [logEntries]
    end in
  each (parse_entry series "metric") entries logs.

Definition parse_series (series : jsval) (logs : list LogRecord)
  : completion (list LogRecord) :=
  values ← Prop_access.get series "values";
  if negb (JS.ToBoolean values) then Normal logs
  else call_forEach values (parse_bucket series) logs.

Definition parseLogs (result : jsval) : completion (list LogRecord) :=
  let logs := [] in
  guard ← (response ← Prop_access.get_opt result "response";
           data ← Prop_access.get_opt response "data";
           Prop_access.get_opt data "result");
  if negb (JS.ToBoolean guard) then Normal logs
  else
    response ← Prop_access.get result "response";
    data ← Prop_access.get response "data";
    resultType ← Prop_access.get data "resultType";
    results ← Prop_access.get data "result";
    if JS.is_string resultType "streams" then call_forEach results parse_stream logs
    else if JS.is_string resultType "matrix" then call_forEach results parse_series logs
    else Normal logs.

Definition headers (options : object) : object :=
  let headers := [] in
  let headers := set_if options "orgId" "X-Scope-OrgID" headers in
  let headers := set_if options "async" "X-Async-Insert" headers in
  let headers := set_if options "fpLimit" "X-Ttl-Days" headers in
  let headers := set_if options "ttlDays" "X-FP-LIMIT" headers in
  headers.

(** The callback of [streams.every] in [push]; [payload] is
    [payload.streams].  The [return s] is not under the inner [if]. *)
Definition check (s : jsval) (payload : list jsval) : M (jsval * list jsval) :=
  h ← read_heap;
  if instanceof_Stream h s then
    n ← entries_length s;
    payload' ← (if negb (n =? 0)%nat
                then c ← collect s; mret (payload ++ [c])
                else mret payload);
    mret (s, payload')
  else mret (VUndefined, payload).

(** [streams.every(check)]: stops at the first falsy answer. *)
Fixpoint every (streams : list jsval) (payload : list jsval) : M (bool * list jsval) :=
  match streams with
  | [] => mret (true, payload)
  | s :: rest =>
      '(r, payload') ← check s payload;
      if JS.ToBoolean r then every rest payload' else mret (false, payload')
  end.

Definition push (svc : service) (streams : jsval) (options : object) : M jsval :=
  '(valid, payload) ←
    match streams with
    | VArr elems => every elems []
    | _ => mret (false, [])
    end;
  if negb valid
  then throw (Gigapipe (mkGigapipeError "Streams must be an array of Stream instances" VUndefined))
  else
    let headers := headers options in
    let elems := match streams with VArr elems => elems | _ => [] end in
    try_catch
      (response ← request svc "/loki/api/v1/push"
                    (mkInit "POST" headers
                       (Some (JS.JSON_stringify (VObj [("streams", VArr payload)]))));
       forEach confirm elems ;;
       mret response)
      (fun error =>
         forEach undo elems ;;
         rethrow "Loki push failed: " error).

End Loki.

Module Read.

(** What [query] and [queryRange] resolve to: the response as it came, or
    the records of [parseLogs] under the [parse] option. *)
Inductive answer : Type :=
| Raw (response : jsval)
| Parsed (logs : list LogRecord).

(** [if (o.k) params.append(k, o.k)] *)
Definition append_if (o : object) (k : string) (params : JS.URLSearchParams)
  : JS.URLSearchParams :=
  if JS.ToBoolean (Prop_access.own o k) then JS.append params k (Prop_access.own o k)
  else params.

(** [`${path}${queryString ? `?${queryString}` : ''}`] *)
Definition with_query (path : string) (params : JS.URLSearchParams) : string :=
  let queryString := JS.params_toString params in
  if JS.ToBoolean (VStr queryString) then path +:+ "?" +:+ queryString else path.

Definition required {A} (msg : string) : M A :=
  throw (Gigapipe (mkGigapipeError msg VUndefined)).

Section Reader.

(** [this.service] and [this.options] *)
Variable svc : service.
Variable options : object.

Definition headers : object :=
  let headers := [] in
  let headers := set_if options "orgId" "X-Scope-OrgID" headers in
  headers.

Definition get_request (url : string) (prefix : string) : M jsval :=
  try_catch (request svc url (mkInit "GET" headers None)) (rethrow prefix).

Definition parse_if (queryOptions : object) (result : jsval) : M answer :=
  if JS.ToBoolean (Prop_access.own queryOptions "parse")
  then logs ← lift (Loki.parseLogs result); mret (Parsed logs)
  else mret (Raw result).

Definition query (query : jsval) (queryOptions : object) : M answer :=
  if negb (JS.ToBoolean query) then required "Query parameter is required"
  else
    let params := JS.append [] "query" query in
    let params := append_if queryOptions "limit" params in
    let params := append_if queryOptions "start" params in
    let params := append_if queryOptions "end" params in
    result ← get_request ("/loki/api/v1/query?" +:+ JS.params_toString params)
               "Loki query failed: ";
    parse_if queryOptions result.

Definition queryRange (query start end_ : jsval) (queryOptions : object) : M answer :=
  if negb (JS.ToBoolean query) then required "Query parameter is required"
  else if negb (JS.ToBoolean start) || negb (JS.ToBoolean end_)
  then required "Start and end timestamps are required"
  else
    let params := JS.append (JS.append (JS.append [] "query" query) "start" start) "end" end_ in
    let params := append_if queryOptions "step" params in
    let params := append_if queryOptions "limit" params in
    result ← get_request ("/loki/api/v1/query_range?" +:+ JS.params_toString params)
               "Loki query range failed: ";
    parse_if queryOptions result.

Definition labels (queryOptions : object) : M jsval :=
  let params := append_if queryOptions "start" [] in
  let params := append_if queryOptions "end" params in
  get_request (with_query "/loki/api/v1/labels" params) "Loki labels retrieval failed: ".

Definition labelValues (labelName : jsval) (queryOptions : object) : M jsval :=
  if negb (JS.ToBoolean labelName) then required "Label name parameter is required"
  else
    let params := append_if queryOptions "start" [] in
    let params := append_if queryOptions "end" params in
    get_request
      (with_query ("/loki/api/v1/label/" +:+ JS.ToString labelName +:+ "/values") params)
      "Loki label values retrieval failed: ".

(** The request parameters [series] builds, or the error of its guards. *)
Definition series_params (match_ : jsval) (queryOptions : object)
  : completion JS.URLSearchParams :=
  if negb (JS.ToBoolean match_)
  then Throw (Gigapipe (mkGigapipeError "Match parameter is required" VUndefined))
  else
    let params := append_if queryOptions "start" [] in
    let params := append_if queryOptions "end" params in
    match match_ with
    | VStr _ => Normal (JS.append params "match[]" match_)
    | VArr elems => Normal (fold_left (fun params m => JS.append params "match[]" m) elems params)
    | _ => Throw (Gigapipe (mkGigapipeError "Match must be a string or array of strings" VUndefined))
    end.

Definition series (match_ : jsval) (queryOptions : object) : M jsval :=
  params ← lift (series_params match_ queryOptions);
  get_request ("/loki/api/v1/series?" +:+ JS.params_toString params)
    "Loki series retrieval failed: ".

End Reader.

End Read.

(** ** The earlier client (src/unnamed/part_000)

    The second source file holds the class [Loki] as it was before the
    reader was split off: [push], [parseLogs] and [headers] have the text
    they have in src/clients/loki.js, and the five read operations are
    methods of [Loki] itself, taking the headers from the same [options]
    object as their request parameters. *)

Module Legacy.

Section Client.

(** [this.service] *)
Variable svc : service.

Definition get_request (options : object) (url : string) (prefix : string) : M jsval :=
  try_catch (request svc url (mkInit "GET" (Loki.headers options) None)) (rethrow prefix).

Definition parse_if (options : object) (result : jsval) : M Read.answer :=
  if JS.ToBoolean (Prop_access.own options "parse")
  then logs ← lift (Loki.parseLogs result); mret (Read.Parsed logs)
  else mret (Read.Raw result).

Definition query (query : jsval) (options : object) : M Read.answer :=
  if negb (JS.ToBoolean query) then Read.required "Query parameter is required"
  else
    let params := JS.append [] "query" query in
    let params := Read.append_if options "limit" params in
    let params := Read.append_if options "start" params in
    let params := Read.append_if options "end" params in
    result ← get_request options ("/loki/api/v1/query?" +:+ JS.params_toString params)
               "Loki query failed: ";
    parse_if options result.

Definition queryRange (query start end_ : jsval) (options : object) : M Read.answer :=
  if negb (JS.ToBoolean query) then Read.required "Query parameter is required"
  else if negb (JS.ToBoolean start) || negb (JS.ToBoolean end_)
  then Read.required "Start and end timestamps are required"
  else
    let params := JS.append (JS.append (JS.append [] "query" query) "start" start) "end" end_ in
    let params := Read.append_if options "step" params in
    let params := Read.append_if options "limit" params in
    result ← get_request options
               ("/loki/api/v1/query_range?" +:+ JS.params_toString params)
               "Loki query range failed: ";
    parse_if options result.

Definition labels (options : object) : M jsval :=
  let params := Read.append_if options "start" [] in
  let params := Read.append_if options "end" params in
  get_request options (Read.with_query "/loki/api/v1/labels" params)
    "Loki labels retrieval failed: ".

Definition labelValues (labelName : jsval) (options : object) : M jsval :=
  if negb (JS.ToBoolean labelName) then Read.required "Label name parameter is required"
  else
    let params := Read.append_if options "start" [] in
    let params := Read.append_if options "end" params in
    get_request options
      (Read.with_query ("/loki/api/v1/label/" +:+ JS.ToString labelName +:+ "/values") params)
      "Loki label values retrieval failed: ".

Definition series (match_ : jsval) (options : object) : M jsval :=
  if negb (JS.ToBoolean match_) then Read.required "Match parameter is required"
  else
    let params := Read.append_if options "start" [] in
    let params := Read.append_if options "end" params in
    params ←
      match match_ with
      | VStr _ => mret (JS.append params "match[]" match_)
      | VArr elems =>
          mret (fold_left (fun params m => JS.append params "match[]" m) elems params)
      | _ => Read.required "Match must be a string or array of strings"
      end;
    get_request options ("/loki/api/v1/series?" +:+ JS.params_toString params)
      "Loki series retrieval failed: ".

End Client.

End Legacy.

(** * Properties *)

(** ** The monad of statements *)

(** One step of a sequence of pure statements. *)
Ltac next := cbn [mbind completion_bind].
Tactic Notation "next" "in" hyp(H) := cbn [mbind completion_bind] in H.
Tactic Notation "next" "in" "*" := cbn [mbind completion_bind] in *.

Lemma bind_normal {A B} (m : M A) (f : A -> M B) w a w' :
  m w = (Normal a, w') -> (m ≫= f) w = f a w'.
Proof. intros H. unfold mbind, M_bind. now rewrite H. Qed.

Lemma bind_throw {A B} (m : M A) (f : A -> M B) w e w' :
  m w = (Throw e, w') -> (m ≫= f) w = (Throw e, w').
Proof. intros H. unfold mbind, M_bind. now rewrite H. Qed.

Lemma try_catch_normal {A} (m : M A) handler w a w' :
  m w = (Normal a, w') -> try_catch m handler w = (Normal a, w').
Proof. intros H. unfold try_catch. now rewrite H. Qed.

Lemma try_catch_throw {A} (m : M A) handler w e w' :
  m w = (Throw e, w') -> try_catch m handler w = handler e w'.
Proof. intros H. unfold try_catch. now rewrite H. Qed.

(** ** Buffers of a push *)

(** The buffer at [l] has at least one pending entry. *)
Definition pending (h : gmap loc Models.Stream) (l : loc) : bool :=
  match h !! l with
  | Some st => negb (length (Models.entries st) =? 0)%nat
  | None => false
  end.

(** What the buffer at [l] gives to the payload. *)
Definition contribution (h : gmap loc Models.Stream) (l : loc) : option jsval :=
  match h !! l with
  | Some st => if pending h l then Some (Models.collect st) else None
  | None => None
  end.

Definition confirm_all (h : gmap loc Models.Stream) (ls : list loc) : gmap loc Models.Stream :=
  foldl (fun h l => alter Models.confirm l h) h ls.

(** The input of [push] is not an array of Stream instances. *)
Definition invalid (h : gmap loc Models.Stream) (streams : jsval) : Prop :=
  match streams with
  | VArr elems => Exists (fun s => instanceof_Stream h s = false) elems
  | _ => True
  end.

(** The calls of the transport in a trace. *)
Definition requests (tr : list event) : list (string * request_init) :=
  omap (fun ev => match ev with Request p i => Some (p, i) | _ => None end) tr.

(** The buffers finalized in a trace. *)
Definition confirms (tr : list event) : list loc :=
  omap (fun ev => match ev with Confirm l => Some l | _ => None end) tr.

Definition undos (tr : list event) : list loc :=
  omap (fun ev => match ev with Undo l => Some l | _ => None end) tr.

Lemma requests_app tr1 tr2 : requests (tr1 ++ tr2) = requests tr1 ++ requests tr2.
Proof. apply omap_app. Qed.

Lemma confirms_app tr1 tr2 : confirms (tr1 ++ tr2) = confirms tr1 ++ confirms tr2.
Proof. apply omap_app. Qed.

Lemma undos_app tr1 tr2 : undos (tr1 ++ tr2) = undos tr1 ++ undos tr2.
Proof. apply omap_app. Qed.

Lemma requests_collects ls : requests (Collect <$> ls) = [].
Proof. induction ls; simpl; auto. Qed.

Lemma confirms_collects ls : confirms (Collect <$> ls) = [].
Proof. induction ls; simpl; auto. Qed.

Lemma undos_collects ls : undos (Collect <$> ls) = [].
Proof. induction ls; simpl; auto. Qed.

Lemma confirms_confirms ls : confirms (Confirm <$> ls) = ls.
Proof. induction ls as [|l ls IH]; [reflexivity|]. cbn. f_equal. exact IH. Qed.

Lemma undos_undos ls : undos (Undo <$> ls) = ls.
Proof. induction ls as [|l ls IH]; [reflexivity|]. cbn. f_equal. exact IH. Qed.

Lemma confirms_undos ls : confirms (Undo <$> ls) = [].
Proof. induction ls; simpl; auto. Qed.

Lemma undos_confirms ls : undos (Confirm <$> ls) = [].
Proof. induction ls; simpl; auto. Qed.

Lemma requests_confirms ls : requests (Confirm <$> ls) = [].
Proof. induction ls; simpl; auto. Qed.

Lemma requests_undos ls : requests (Undo <$> ls) = [].
Proof. induction ls; simpl; auto. Qed.

Lemma requests_request path init tr :
  requests (Request path init :: tr) = (path, init) :: requests tr.
Proof. reflexivity. Qed.

Lemma confirms_request path init tr : confirms (Request path init :: tr) = confirms tr.
Proof. reflexivity. Qed.

Lemma undos_request path init tr : undos (Request path init :: tr) = undos tr.
Proof. reflexivity. Qed.

(** Reading a trace made of collects, a request and finalizers. *)
Create Rewrite HintDb trace.
#[export] Hint Rewrite
  requests_app confirms_app undos_app
  requests_collects confirms_collects undos_collects
  confirms_confirms undos_undos confirms_undos undos_confirms
  requests_confirms requests_undos
  requests_request confirms_request undos_request
  app_nil_l app_nil_r : trace.

Lemma instanceof_ref h l : instanceof_Stream h (VRef l) = true <-> is_Some (h !! l).
Proof. simpl. apply bool_decide_eq_true. Qed.

(** The callback of [every] on an instance: it collects when there is
    something pending, changes no buffer and answers the instance. *)
Lemma check_instance h tr l payload :
  is_Some (h !! l) ->
  Loki.check (VRef l) payload (mkWorld h tr) =
    (Normal (VRef l, payload ++ option_list (contribution h l)),
     mkWorld h (tr ++ (if pending h l then [Collect l] else []))).
Proof.
  intros [st Hst].
  unfold Loki.check. erewrite bind_normal by reflexivity.
  cbn [heap]. rewrite (proj2 (instanceof_ref h l)) by eauto.
  unfold entries_length, collect, with_stream, contribution, pending.
  unfold mbind, M_bind, mret, M_ret, read_heap, emit; simpl. rewrite Hst; simpl.
  destruct (length (Models.entries st) =? 0)%nat; simpl.
  - now rewrite !app_nil_r.
  - rewrite Hst. reflexivity.
Qed.

Lemma check_other h tr s payload :
  instanceof_Stream h s = false ->
  Loki.check s payload (mkWorld h tr) = (Normal (VUndefined, payload), mkWorld h tr).
Proof.
  intros Hs. unfold Loki.check. erewrite bind_normal by reflexivity.
  cbn [heap]. now rewrite Hs.
Qed.

Lemma every_valid ls : forall h tr payload,
  Forall (fun l => is_Some (h !! l)) ls ->
  Loki.every (VRef <$> ls) payload (mkWorld h tr) =
    (Normal (true, payload ++ omap (contribution h) ls),
     mkWorld h (tr ++ (Collect <$> List.filter (pending h) ls))).
Proof.
  induction ls as [|l ls IH]; intros h tr payload Hall.
  - simpl. now rewrite !app_nil_r.
  - inversion Hall as [|? ? Hl Hrest]; subst.
    cbn [fmap list_fmap Loki.every].
    erewrite bind_normal by (apply check_instance; exact Hl).
    cbn [JS.ToBoolean]. rewrite IH by exact Hrest.
    cbn [omap list_omap List.filter].
    destruct (contribution h l), (pending h l); cbn [option_list];
      rewrite <- ?app_assoc; reflexivity.
Qed.

(** When some element is not an instance, [every] answers false after
    at most some collects. *)
Lemma every_invalid elems : forall h tr payload,
  Exists (fun s => instanceof_Stream h s = false) elems ->
  exists payload' cs,
    Loki.every elems payload (mkWorld h tr) =
      (Normal (false, payload'), mkWorld h (tr ++ (Collect <$> cs))).
Proof.
  induction elems as [|s elems IH]; intros h tr payload Hex.
  - inversion Hex.
  - cbn [Loki.every].
    destruct (instanceof_Stream h s) eqn:Hs.
    + destruct s; try discriminate Hs.
      apply instanceof_ref in Hs.
      erewrite bind_normal by (apply check_instance; exact Hs).
      cbn [JS.ToBoolean].
      inversion Hex as [? ? Hbad|? ? Hrest]; subst.
      { simpl in Hbad. apply bool_decide_eq_false in Hbad. tauto. }
      destruct (IH h (tr ++ (if pending h l then [Collect l] else []))
                  (payload ++ option_list (contribution h l)) Hrest)
        as (payload' & cs & Heq).
      rewrite Heq.
      exists payload', ((if pending h l then [l] else []) ++ cs).
      rewrite fmap_app, app_assoc. destruct (pending h l); reflexivity.
    + erewrite bind_normal by (apply check_other; exact Hs).
      cbn [JS.ToBoolean]. exists payload, [].
      simpl. now rewrite app_nil_r.
Qed.

Lemma alter_is_Some (f : Models.Stream -> Models.Stream) (h : gmap loc Models.Stream) l l' :
  is_Some (alter f l h !! l') <-> is_Some (h !! l').
Proof.
  destruct (decide (l = l')) as [->|Hne].
  - rewrite lookup_alter_eq. apply fmap_is_Some.
  - rewrite lookup_alter_ne by exact Hne. reflexivity.
Qed.

Lemma forEach_confirm ls : forall h tr,
  Forall (fun l => is_Some (h !! l)) ls ->
  forEach confirm (VRef <$> ls) (mkWorld h tr) =
    (Normal tt, mkWorld (confirm_all h ls) (tr ++ (Confirm <$> ls))).
Proof.
  induction ls as [|l ls IH]; intros h tr Hall.
  - simpl. now rewrite app_nil_r.
  - inversion Hall as [|? ? [st Hst] Hrest]; subst.
    cbn [fmap list_fmap forEach].
    erewrite bind_normal.
    2:{ unfold confirm, with_stream, mbind, M_bind, read_heap, emit, update; simpl.
        rewrite Hst. reflexivity. }
    rewrite IH.
    + simpl. now rewrite <- app_assoc.
    + eapply Forall_impl; [exact Hrest|]. intros l'. now rewrite alter_is_Some.
Qed.

Lemma alter_undo (h : gmap loc Models.Stream) l : alter Models.undo l h = h.
Proof. apply alter_id. reflexivity. Qed.

Lemma forEach_undo ls : forall h tr,
  Forall (fun l => is_Some (h !! l)) ls ->
  forEach undo (VRef <$> ls) (mkWorld h tr) =
    (Normal tt, mkWorld h (tr ++ (Undo <$> ls))).
Proof.
  induction ls as [|l ls IH]; intros h tr Hall.
  - simpl. now rewrite app_nil_r.
  - inversion Hall as [|? ? [st Hst] Hrest]; subst.
    cbn [fmap list_fmap forEach].
    erewrite bind_normal.
    2:{ unfold undo, with_stream, mbind, M_bind, read_heap, emit, update; simpl.
        rewrite Hst, alter_undo. reflexivity. }
    rewrite IH by exact Hrest.
    simpl. now rewrite <- app_assoc.
Qed.

(** ** [push] on its two kinds of input *)

Definition push_path : string := "/loki/api/v1/push".

(** The request of a push of the buffers [ls]. *)
Definition push_init (h : gmap loc Models.Stream) (ls : list loc) (options : object)
  : request_init :=
  mkInit "POST" (Loki.headers options)
    (Some (JS.JSON_stringify (VObj [("streams", VArr (omap (contribution h) ls))]))).

(** What an operation throws when its transport call rejects with
    [error]. *)
Definition raised (prefix : string) (error : exn) : exn :=
  match error with
  | Gigapipe e => Gigapipe e
  | ErrorObject _ msg status =>
      Gigapipe (mkGigapipeError (prefix +:+ JS.ToString msg) status)
  end.

Lemma rethrow_raised {A} prefix error w :
  @rethrow A prefix error w = (Throw (raised prefix error), w).
Proof. destruct error; reflexivity. Qed.

Lemma push_valid svc ls options h tr :
  Forall (fun l => is_Some (h !! l)) ls ->
  Loki.push svc (VArr (VRef <$> ls)) options (mkWorld h tr) =
    let before := tr ++ (Collect <$> List.filter (pending h) ls) ++
                  [Request push_path (push_init h ls options)] in
    match svc push_path (push_init h ls options) with
    | Normal response =>
        (Normal response, mkWorld (confirm_all h ls) (before ++ (Confirm <$> ls)))
    | Throw error =>
        (Throw (raised "Loki push failed: " error), mkWorld h (before ++ (Undo <$> ls)))
    end.
Proof.
  intros Hall. unfold Loki.push.
  erewrite bind_normal by (apply every_valid; exact Hall).
  cbn [negb app]. fold push_path. fold (push_init h ls options).
  unfold request, emit, lift.
  destruct (svc push_path (push_init h ls options)) as [response|error] eqn:Hsvc.
  - erewrite try_catch_normal; [reflexivity|].
    erewrite bind_normal.
    2:{ unfold mbind at 1, M_bind at 1. reflexivity. }
    erewrite bind_normal by (apply forEach_confirm; exact Hall).
    unfold mret, M_ret. cbn [heap trace]. now rewrite <- !app_assoc.
  - erewrite try_catch_throw.
    2:{ apply bind_throw. unfold mbind, M_bind. reflexivity. }
    erewrite bind_normal by (apply forEach_undo; exact Hall).
    rewrite rethrow_raised. cbn [heap trace]. now rewrite <- !app_assoc.
Qed.

Lemma push_invalid svc streams options h tr :
  invalid h streams ->
  exists cs,
    Loki.push svc streams options (mkWorld h tr) =
      (Throw (Gigapipe (mkGigapipeError "Streams must be an array of Stream instances"
                          VUndefined)),
       mkWorld h (tr ++ (Collect <$> cs))).
Proof.
  intros Hbad. unfold Loki.push.
  destruct streams as [| | | | |elems| | |];
    try (exists []; erewrite bind_normal by reflexivity; simpl; now rewrite app_nil_r).
  destruct (every_invalid elems h tr [] Hbad) as (payload & cs & Heq).
  exists cs. erewrite bind_normal by exact Heq. reflexivity.
Qed.

(** Every array is one of the two. *)
Lemma array_valid_or_invalid h elems :
  invalid h (VArr elems) \/
  exists ls, elems = VRef <$> ls /\ Forall (fun l => is_Some (h !! l)) ls.
Proof.
  induction elems as [|s elems IH].
  - right. exists []. split; [reflexivity|constructor].
  - destruct (instanceof_Stream h s) eqn:Hs.
    + destruct IH as [Hbad|(ls & -> & Hall)].
      * left. now apply Exists_cons_tl.
      * right. destruct s; try discriminate Hs.
        exists (l :: ls). split; [reflexivity|].
        constructor; [now apply instanceof_ref|exact Hall].
    + left. now apply Exists_cons_hd.
Qed.

(** ** Claims on [Loki.push] *)

(** C1.  A push whose input passes validation (an array of Stream
    instances, here the buffers at [ls] of the heap [h]) makes one
    transport call and then finalizes every buffer of the input, empty
    ones included, in input order: with [confirm()] when the call
    resolves, the response being the result; with [undo()] when it rejects,
    the error being thrown to the caller (as it is when it is a
    [GigapipeError], wrapped otherwise).  And on no input at all, valid or
    not, does one call both confirm a buffer and undo a buffer. *)
Theorem push_confirms_all_or_undoes_all
  (svc : service) (h : gmap loc Models.Stream) (options : object) (ls : list loc) :
  Forall (fun l => is_Some (h !! l)) ls ->
  (let init := push_init h ls options in
   let collects := Collect <$> List.filter (pending h) ls in
   let result := Loki.push svc (VArr (VRef <$> ls)) options (mkWorld h []) in
   match svc push_path init with
   | Normal response =>
       fst result = Normal response /\
       trace (snd result) = collects ++ Request push_path init :: (Confirm <$> ls) /\
       heap (snd result) = confirm_all h ls
   | Throw error =>
       fst result = Throw (match error with
                           | Gigapipe e => Gigapipe e
                           | ErrorObject _ msg status =>
                               Gigapipe (mkGigapipeError
                                           ("Loki push failed: " +:+ JS.ToString msg) status)
                           end) /\
       trace (snd result) = collects ++ Request push_path init :: (Undo <$> ls) /\
       heap (snd result) = h
   end) /\
  (forall streams : jsval,
     let w := snd (Loki.push svc streams options (mkWorld h [])) in
     confirms (trace w) = [] \/ undos (trace w) = []).
Proof.
  intros Hall. split.
  - cbv zeta. rewrite (push_valid svc ls options h [] Hall). cbv zeta.
    destruct (svc push_path (push_init h ls options)) as [response|error];
      (split; [reflexivity|split; [|reflexivity]]);
      cbn [snd trace app]; now rewrite <- app_assoc.
  - intros streams w.
    assert (Hcases : invalid h streams \/
                     exists ls', streams = VArr (VRef <$> ls') /\
                                 Forall (fun l => is_Some (h !! l)) ls').
    { destruct streams; try (left; exact I).
      destruct (array_valid_or_invalid h elems) as [Hbad|(ls' & -> & Hls')];
        [left; exact Hbad|right; eauto]. }
    destruct Hcases as [Hbad|(ls' & -> & Hls')]; subst w.
    + destruct (push_invalid svc streams options h [] Hbad) as (cs & ->).
      left. cbn [snd trace app]. now autorewrite with trace.
    + rewrite (push_valid svc ls' options h [] Hls'). cbv zeta.
      destruct (svc push_path (push_init h ls' options)); cbn [snd trace app];
        [right|left]; now autorewrite with trace.
Qed.

(** Two buffers for the examples: one with a pending entry, one empty. *)
Definition demo_heap : gmap loc Models.Stream :=
  <[1%nat := Models.mkStream [("job", VStr "api")]
               [Models.mkEntry (VStr "1700000000000000000") (VStr "started") None] []]>
    (<[2%nat := Models.mkStream [("job", VStr "db")] [] []]> ∅).

Lemma demo_heap_valid : Forall (fun l => is_Some (demo_heap !! l)) [1; 2]%nat.
Proof. repeat constructor; vm_compute; eauto. Defined.

Lemma push_confirms_all_or_undoes_all_witness :
  let result := Loki.push (fun _ _ => Normal VNull) (VArr [VRef 1; VRef 2]) []
                  (mkWorld demo_heap []) in
  fst result = Normal VNull /\
  confirms (trace (snd result)) = [1; 2]%nat /\
  undos (trace (snd result)) = [].
Proof.
  destruct (push_confirms_all_or_undoes_all (fun _ _ => Normal VNull) demo_heap []
              [1; 2]%nat demo_heap_valid) as [[Hout [Htrace _]] _].
  cbv zeta. split; [exact Hout|]. cbn [fmap list_fmap] in Htrace.
  rewrite Htrace. split; reflexivity.
Defined.

(** C3.  In a push of Stream buffers, the [streams] array of the payload
    holds the [collect()] of exactly the buffers that have a pending entry
    when they are collected, in input order; the buffers without one are
    left out of it but are finalized with the others, all confirmed or all
    undone; and the push makes exactly one transport call, also over no
    buffer at all or over empty ones only, the [streams] array being empty
    then. *)
Theorem push_payload_skips_empty_buffers
  (svc : service) (h : gmap loc Models.Stream) (options : object) (ls : list loc) :
  Forall (fun l => is_Some (h !! l)) ls ->
  let w := snd (Loki.push svc (VArr (VRef <$> ls)) options (mkWorld h [])) in
  let streams := omap (contribution h) ls in
  requests (trace w) =
    [(push_path,
      mkInit "POST" (Loki.headers options)
        (Some (JS.JSON_stringify (VObj [("streams", VArr streams)]))))] /\
  (forall l, match h !! l with
             | Some st => contribution h l =
                          if decide (Models.entries st = []) then None
                          else Some (Models.collect st)
             | None => contribution h l = None
             end) /\
  (confirms (trace w) = ls /\ undos (trace w) = [] \/
   undos (trace w) = ls /\ confirms (trace w) = []) /\
  (Forall (fun l => forall st, h !! l = Some st -> Models.entries st = []) ls ->
   streams = []).
Proof.
  intros Hall w streams. subst w streams.
  rewrite (push_valid svc ls options h [] Hall). cbv zeta.
  fold (push_init h ls options).
  split; [|split; [|split]].
  - destruct (svc push_path (push_init h ls options)); cbn [snd trace app];
      now autorewrite with trace.
  - intros l. unfold contribution, pending.
    destruct (h !! l) as [st|]; [|reflexivity].
    destruct (Models.entries st); reflexivity.
  - destruct (svc push_path (push_init h ls options)); cbn [snd trace app];
      [left|right]; now autorewrite with trace.
  - intros Hempty. induction ls as [|l ls IH]; [reflexivity|].
    inversion Hall as [|? ? [st Hst] Hall']; subst.
    inversion Hempty as [|? ? He Hempty']; subst.
    cbn [omap list_omap]. unfold contribution at 1, pending. rewrite Hst.
    rewrite (He st Hst). cbn. now apply IH.
Qed.

Lemma push_payload_skips_empty_buffers_witness :
  requests (trace (snd (Loki.push (fun _ _ => Normal VNull) (VArr [VRef 2; VRef 2]) []
                          (mkWorld demo_heap [])))) =
    [(push_path, mkInit "POST" [] (Some (JS.JSON_stringify (VObj [("streams", VArr [])]))))].
Proof.
  assert (Hall : Forall (fun l => is_Some (demo_heap !! l)) [2; 2]%nat)
    by (repeat constructor; vm_compute; eauto).
  destruct (push_payload_skips_empty_buffers (fun _ _ => Normal VNull) demo_heap []
              [2; 2]%nat Hall) as [Hreq _].
  exact Hreq.
Defined.

(** C4.  An input of [push] that is not an array, or an array with an
    element that is not an instance of [Stream], makes it fail with the
    [InvalidInput] error, and no transport call is made. *)
Theorem push_rejects_invalid_input
  (svc : service) (h : gmap loc Models.Stream) (options : object) (streams : jsval) :
  invalid h streams ->
  let result := Loki.push svc streams options (mkWorld h []) in
  exists e, fst result = Throw (Gigapipe e) /\
            kind e = InvalidInput /\
            message e = "Streams must be an array of Stream instances" /\
            requests (trace (snd result)) = [].
Proof.
  intros Hbad result. subst result.
  destruct (push_invalid svc streams options h [] Hbad) as (cs & ->).
  eexists. split; [reflexivity|]. split; [reflexivity|]. split; [reflexivity|].
  cbn [snd trace app]. now autorewrite with trace.
Qed.

Lemma push_rejects_invalid_input_witness :
  exists e,
    fst (Loki.push (fun _ _ => Normal VNull) (VArr [VRef 1; VStr "stream"]) []
           (mkWorld demo_heap [])) = Throw (Gigapipe e) /\
    kind e = InvalidInput.
Proof.
  assert (Hbad : invalid demo_heap (VArr [VRef 1; VStr "stream"]))
    by (apply Exists_cons_tl, Exists_cons_hd; reflexivity).
  destruct (push_rejects_invalid_input (fun _ _ => Normal VNull) demo_heap []
              (VArr [VRef 1; VStr "stream"]) Hbad) as (e & Hout & Hkind & _).
  exists e. split; [exact Hout|exact Hkind].
Defined.

(** C10.  When [push] fails on its validation (the input is not an array,
    or holds an element that is not a Stream instance), neither [confirm()]
    nor [undo()] has been called on anything, and every buffer is as it was
    before the call. *)
Theorem push_validation_failure_touches_no_buffer
  (svc : service) (h : gmap loc Models.Stream) (options : object) (streams : jsval) :
  invalid h streams ->
  let result := Loki.push svc streams options (mkWorld h []) in
  fst result = Throw (Gigapipe (mkGigapipeError
                                  "Streams must be an array of Stream instances" VUndefined)) /\
  confirms (trace (snd result)) = [] /\
  undos (trace (snd result)) = [] /\
  heap (snd result) = h.
Proof.
  intros Hbad result. subst result.
  destruct (push_invalid svc streams options h [] Hbad) as (cs & ->).
  cbn [fst snd trace heap app].
  repeat split; now autorewrite with trace.
Qed.

Lemma push_validation_failure_touches_no_buffer_witness :
  let result := Loki.push (fun _ _ => Normal VNull) (VArr [VRef 1; VNum 7]) []
                  (mkWorld demo_heap []) in
  trace (snd result) = [Collect 1%nat] /\ heap (snd result) = demo_heap.
Proof.
  assert (Hbad : invalid demo_heap (VArr [VRef 1; VNum 7]))
    by (apply Exists_cons_tl, Exists_cons_hd; reflexivity).
  destruct (push_validation_failure_touches_no_buffer (fun _ _ => Normal VNull)
              demo_heap [] (VArr [VRef 1; VNum 7]) Hbad) as (_ & _ & _ & Hheap).
  cbv zeta. split; [reflexivity|exact Hheap].
Defined.

(** ** The read operations *)

Lemma get_request_rejected svc options url prefix w error :
  svc url (mkInit "GET" (Read.headers options) None) = Throw error ->
  Read.get_request svc options url prefix w =
    (Throw (raised prefix error),
     mkWorld (heap w)
       (trace w ++ [Request url (mkInit "GET" (Read.headers options) None)])).
Proof.
  intros Hsvc. unfold Read.get_request.
  erewrite try_catch_throw.
  2:{ unfold request, emit, lift, mbind, M_bind. rewrite Hsvc. reflexivity. }
  apply rethrow_raised.
Qed.

Lemma get_request_resolved svc options url prefix w response :
  svc url (mkInit "GET" (Read.headers options) None) = Normal response ->
  Read.get_request svc options url prefix w =
    (Normal response,
     mkWorld (heap w)
       (trace w ++ [Request url (mkInit "GET" (Read.headers options) None)])).
Proof.
  intros Hsvc. unfold Read.get_request.
  erewrite try_catch_normal; [reflexivity|].
  unfold request, emit, lift, mbind, M_bind. rewrite Hsvc. reflexivity.
Qed.

(** C7.  [queryRange] fails with the [MissingParameter] error, the world
    left as it was and so without any transport call, as soon as the
    query, the start or the end is absent; absence is falsiness, so that
    undefined, null and also the number 0 are absent. *)
Theorem queryRange_requires_query_start_end
  (svc : service) (options : object) (query start end_ : jsval) (queryOptions : object)
  (w : world) :
  JS.ToBoolean query = false \/ JS.ToBoolean start = false \/ JS.ToBoolean end_ = false ->
  (exists e,
     Read.queryRange svc options query start end_ queryOptions w = (Throw (Gigapipe e), w) /\
     kind e = MissingParameter /\
     (message e = "Query parameter is required" \/
      message e = "Start and end timestamps are required")) /\
  JS.ToBoolean VUndefined = false /\
  JS.ToBoolean VNull = false /\
  JS.ToBoolean (VNum 0) = false.
Proof.
  intros Habsent. split; [|repeat split].
  unfold Read.queryRange.
  destruct (JS.ToBoolean query) eqn:Hq; cbn [negb].
  - destruct Habsent as [Hq'|[Hs|He]]; [discriminate Hq'| |].
    + rewrite Hs. eexists. split; [reflexivity|]. split; [reflexivity|now right].
    + rewrite He, orb_true_r. eexists. split; [reflexivity|]. split; [reflexivity|now right].
  - eexists. split; [reflexivity|]. split; [reflexivity|now left].
Qed.

Lemma queryRange_requires_query_start_end_witness :
  exists e,
    Read.queryRange (fun _ _ => Normal VNull) [] (VStr "x") VUndefined (VNum 5) []
      (mkWorld ∅ []) = (Throw (Gigapipe e), mkWorld ∅ []) /\
    kind e = MissingParameter.
Proof.
  destruct (queryRange_requires_query_start_end (fun _ _ => Normal VNull) []
              (VStr "x") VUndefined (VNum 5) [] (mkWorld ∅ [])
              (or_intror (or_introl eq_refl))) as [(e & Hrun & Hkind & _) _].
  exists e. split; [exact Hrun|exact Hkind].
Defined.

(** The request parameters of [series] that do not come from [match]. *)
Definition series_base (queryOptions : object) : JS.URLSearchParams :=
  Read.append_if queryOptions "end" (Read.append_if queryOptions "start" []).

(** The values of the [match[]] parameters, in the order of the request. *)
Definition match_values (params : JS.URLSearchParams) : list string :=
  snd <$> List.filter (fun p => String.eqb (fst p) "match[]") params.

Lemma match_values_app p1 p2 : match_values (p1 ++ p2) = match_values p1 ++ match_values p2.
Proof. unfold match_values. now rewrite List.filter_app, fmap_app. Qed.

Lemma match_values_base queryOptions : match_values (series_base queryOptions) = [].
Proof.
  unfold series_base, Read.append_if, JS.append.
  destruct (JS.ToBoolean (Prop_access.own queryOptions "end")),
           (JS.ToBoolean (Prop_access.own queryOptions "start")); reflexivity.
Qed.

Lemma fold_append_match elems : forall params,
  fold_left (fun params m => JS.append params "match[]" m) elems params =
  params ++ ((fun m => ("match[]", JS.to_usv (JS.ToString m))) <$> elems).
Proof.
  induction elems as [|m elems IH]; intros params; cbn [fold_left fmap list_fmap].
  - now rewrite app_nil_r.
  - rewrite IH. unfold JS.append at 1. now rewrite <- app_assoc.
Qed.

Lemma match_values_matches elems :
  match_values ((fun m => ("match[]", JS.to_usv (JS.ToString m))) <$> elems) =
  (fun m => JS.to_usv (JS.ToString m)) <$> elems.
Proof. induction elems as [|m elems IH]; [reflexivity|]. cbn. f_equal. exact IH. Qed.

(** The one request of [series], with the given parameters. *)
Definition series_request (options : object) (params : JS.URLSearchParams) : event :=
  Request ("/loki/api/v1/series?" +:+ JS.params_toString params)
    (mkInit "GET" (Read.headers options) None).

Lemma series_requests svc options match_ queryOptions w params :
  Read.series_params match_ queryOptions = Normal params ->
  trace (snd (Read.series svc options match_ queryOptions w)) =
    trace w ++ [series_request options params].
Proof.
  intros Hp. unfold Read.series, lift.
  erewrite bind_normal by (rewrite Hp; reflexivity).
  destruct (svc ("/loki/api/v1/series?" +:+ JS.params_toString params)
              (mkInit "GET" (Read.headers options) None)) eqn:Hsvc.
  - erewrite get_request_resolved by exact Hsvc. reflexivity.
  - erewrite get_request_rejected by exact Hsvc. reflexivity.
Qed.

(** C8.  [series] fails with the [MissingParameter] error when [match] is
    absent (falsy: undefined, null, the empty string, ...), and with the
    [InvalidInput] error when it is there but is neither a string nor an
    array, as 42 is; given a string it makes its request with exactly one
    [match[]] parameter, and given an array of strings with one [match[]]
    parameter per element, in the order of the array. *)
Theorem series_match_parameter
  (svc : service) (options : object) (queryOptions : object) (w : world) :
  (forall match_, JS.ToBoolean match_ = false ->
     exists e, Read.series svc options match_ queryOptions w = (Throw (Gigapipe e), w) /\
               kind e = MissingParameter /\
               message e = "Match parameter is required") /\
  (forall match_, JS.ToBoolean match_ = true ->
     (forall s, match_ <> VStr s) -> (forall elems, match_ <> VArr elems) ->
     exists e, Read.series svc options match_ queryOptions w = (Throw (Gigapipe e), w) /\
               kind e = InvalidInput /\
               message e = "Match must be a string or array of strings") /\
  (exists e, Read.series svc options (VNum 42) queryOptions w = (Throw (Gigapipe e), w) /\
             kind e = InvalidInput) /\
  (forall s, JS.ToBoolean (VStr s) = true ->
     exists params,
       trace (snd (Read.series svc options (VStr s) queryOptions w)) =
         trace w ++ [series_request options params] /\
       match_values params = [JS.to_usv s]) /\
  (forall ss : list string,
     exists params,
       trace (snd (Read.series svc options (VArr (VStr <$> ss)) queryOptions w)) =
         trace w ++ [series_request options params] /\
       match_values params = JS.to_usv <$> ss).
Proof.
  assert (Hinvalid : forall match_, JS.ToBoolean match_ = true ->
            (forall s, match_ <> VStr s) -> (forall elems, match_ <> VArr elems) ->
            exists e, Read.series svc options match_ queryOptions w = (Throw (Gigapipe e), w) /\
                      kind e = InvalidInput /\
                      message e = "Match must be a string or array of strings").
  { intros match_ Ht Hs Ha. unfold Read.series, Read.series_params. rewrite Ht. cbn [negb].
    destruct match_; try (eexists; repeat split; reflexivity).
    - now destruct (Hs s).
    - now destruct (Ha elems). }
  split; [|split; [exact Hinvalid|split; [|split]]].
  - intros match_ Hf. unfold Read.series, Read.series_params. rewrite Hf.
    eexists. repeat split; reflexivity.
  - destruct (Hinvalid (VNum 42)) as (e & Hrun & Hkind & _);
      [reflexivity|discriminate|discriminate|].
    exists e. split; [exact Hrun|exact Hkind].
  - intros s Hs. exists (JS.append (series_base queryOptions) "match[]" (VStr s)). split.
    + apply series_requests. unfold Read.series_params. rewrite Hs. reflexivity.
    + unfold JS.append. rewrite match_values_app, match_values_base. reflexivity.
  - intros ss.
    exists (series_base queryOptions ++
              ((fun m => ("match[]", JS.to_usv (JS.ToString m))) <$> (VStr <$> ss))).
    split.
    + apply series_requests. unfold Read.series_params. cbn [JS.ToBoolean negb].
      now rewrite fold_append_match.
    + rewrite match_values_app, match_values_base, match_values_matches.
      cbn [app]. rewrite <- list_fmap_compose. reflexivity.
Qed.

(** A double quote, for the texts of the examples. *)
Definition dq : string := String (JS.byte 34) "".

Lemma series_match_parameter_witness :
  exists params,
    trace (snd (Read.series (fun _ _ => Normal VNull) []
                  (VArr [VStr ("{job=" +:+ dq +:+ "a" +:+ dq +:+ "}");
                         VStr ("{job=" +:+ dq +:+ "b" +:+ dq +:+ "}")])
                  [] (mkWorld ∅ []))) = [series_request [] params] /\
    match_values params = ["{job=" +:+ dq +:+ "a" +:+ dq +:+ "}";
                           "{job=" +:+ dq +:+ "b" +:+ dq +:+ "}"].
Proof.
  destruct (series_match_parameter (fun _ _ => Normal VNull) [] [] (mkWorld ∅ []))
    as (_ & _ & _ & _ & Harr).
  destruct (Harr ["{job=" +:+ dq +:+ "a" +:+ dq +:+ "}";
                  "{job=" +:+ dq +:+ "b" +:+ dq +:+ "}"]) as (params & Htrace & Hvalues).
  exists params. split; [exact Htrace|exact Hvalues].
Defined.

(** The claim C8 as it is worded promises a request with one [match[]]
    parameter for every string, and the [InvalidInput] error for every
    value that is neither a string nor an array; for the empty string
    [series] makes no request, and for it and for the number 0 it fails
    with the error of an absent [match]. *)
Lemma series_empty_string_counterexample :
  (exists e,
     Read.series (fun _ _ => Normal VNull) [] (VStr "") [] (mkWorld ∅ []) =
       (Throw (Gigapipe e), mkWorld ∅ []) /\
     kind e = MissingParameter) /\
  ~ (exists params,
       trace (snd (Read.series (fun _ _ => Normal VNull) [] (VStr "") [] (mkWorld ∅ []))) =
         [series_request [] params]) /\
  (exists e,
     Read.series (fun _ _ => Normal VNull) [] (VNum 0) [] (mkWorld ∅ []) =
       (Throw (Gigapipe e), mkWorld ∅ []) /\
     message e = "Match parameter is required" /\
     kind e <> InvalidInput).
Proof.
  split; [|split].
  - eexists. split; reflexivity.
  - intros (params & Htrace). discriminate Htrace.
  - eexists. split; [reflexivity|]. split; [reflexivity|discriminate].
Qed.

(** C9.  When the transport rejects, every operation throws what [raised]
    makes of the error: the error itself when it is a [GigapipeError],
    message and status code untouched, and otherwise a new [GigapipeError]
    whose message is the prefix of the operation followed by the message
    of the error, and whose status code is that of the error. *)
Theorem transport_errors_propagate_or_wrap (svc : service) (error : exn) :
  (forall path init, svc path init = Throw error) ->
  (forall prefix e, raised prefix (Gigapipe e) = Gigapipe e) /\
  (forall prefix name msg status,
     raised prefix (ErrorObject name msg status) =
       Gigapipe (mkGigapipeError (prefix +:+ JS.ToString msg) status)) /\
  (forall h ls options,
     Forall (fun l => is_Some (h !! l)) ls ->
     fst (Loki.push svc (VArr (VRef <$> ls)) options (mkWorld h [])) =
       Throw (raised "Loki push failed: " error)) /\
  (forall options query queryOptions w,
     JS.ToBoolean query = true ->
     fst (Read.query svc options query queryOptions w) =
       Throw (raised "Loki query failed: " error)) /\
  (forall options query start end_ queryOptions w,
     JS.ToBoolean query = true -> JS.ToBoolean start = true -> JS.ToBoolean end_ = true ->
     fst (Read.queryRange svc options query start end_ queryOptions w) =
       Throw (raised "Loki query range failed: " error)) /\
  (forall options queryOptions w,
     fst (Read.labels svc options queryOptions w) =
       Throw (raised "Loki labels retrieval failed: " error)) /\
  (forall options labelName queryOptions w,
     JS.ToBoolean labelName = true ->
     fst (Read.labelValues svc options labelName queryOptions w) =
       Throw (raised "Loki label values retrieval failed: " error)) /\
  (forall options match_ queryOptions w params,
     Read.series_params match_ queryOptions = Normal params ->
     fst (Read.series svc options match_ queryOptions w) =
       Throw (raised "Loki series retrieval failed: " error)).
Proof.
  intros Hsvc.
  split; [reflexivity|]. split; [reflexivity|].
  split; [|split; [|split; [|split; [|split]]]].
  - intros h ls options Hall. rewrite (push_valid svc ls options h [] Hall).
    cbv zeta. now rewrite Hsvc.
  - intros options query queryOptions w Hq. unfold Read.query. rewrite Hq. cbn [negb].
    erewrite bind_throw by (apply get_request_rejected, Hsvc). reflexivity.
  - intros options query start end_ queryOptions w Hq Hs He.
    unfold Read.queryRange. rewrite Hq, Hs, He. cbn [negb orb].
    erewrite bind_throw by (apply get_request_rejected, Hsvc). reflexivity.
  - intros options queryOptions w. unfold Read.labels.
    erewrite get_request_rejected by apply Hsvc. reflexivity.
  - intros options labelName queryOptions w Hl. unfold Read.labelValues.
    rewrite Hl. cbn [negb].
    erewrite get_request_rejected by apply Hsvc. reflexivity.
  - intros options match_ queryOptions w params Hp. unfold Read.series, lift.
    erewrite bind_normal by (rewrite Hp; reflexivity).
    erewrite get_request_rejected by apply Hsvc. reflexivity.
Qed.

Lemma transport_errors_propagate_or_wrap_witness :
  fst (Read.query (fun _ _ => Throw (ErrorObject "Error" (VStr "timeout") (VNum 504))) []
         (VStr "{job}") [] (mkWorld ∅ [])) =
    Throw (Gigapipe (mkGigapipeError "Loki query failed: timeout" (VNum 504))).
Proof.
  destruct (transport_errors_propagate_or_wrap
              (fun _ _ => Throw (ErrorObject "Error" (VStr "timeout") (VNum 504)))
              (ErrorObject "Error" (VStr "timeout") (VNum 504))
              (fun _ _ => eq_refl)) as (_ & _ & _ & Hquery & _).
  exact (Hquery [] (VStr "{job}") [] (mkWorld ∅ []) eq_refl).
Defined.

(** ** [Loki.parseLogs] *)

(** The reads [result?.response?.data?.result] and
    [result?.response?.data?.resultType]. *)
Definition result_field (result : jsval) : completion jsval :=
  response ← Prop_access.get_opt result "response";
  data ← Prop_access.get_opt response "data";
  Prop_access.get_opt data "result".

Definition result_type (result : jsval) : completion jsval :=
  response ← Prop_access.get_opt result "response";
  data ← Prop_access.get_opt response "data";
  Prop_access.get_opt data "resultType".

(** A response [{ response: { data: { resultType, result } } }]. *)
Definition response_of (resultType : string) (result : list jsval) : jsval :=
  VObj [("response",
         VObj [("data", VObj [("resultType", VStr resultType); ("result", VArr result)])])].

Lemma get_opt_normal v k : exists x, Prop_access.get_opt v k = Normal x.
Proof.
  destruct v; cbn; eauto.
  - destruct (String.eqb k "length"); eauto.
  - destruct (String.eqb k "length"); [eauto|].
    destruct (String.eqb k "values"); [eauto|].
    destruct (JS.array_index k); eauto.
Qed.

Lemma get_opt_truthy v k x :
  Prop_access.get_opt v k = Normal x -> JS.ToBoolean x = true ->
  Prop_access.get v k = Normal x.
Proof.
  destruct v; cbn; intros H Hx; try exact H; inversion H; subst; discriminate Hx.
Qed.

(** C6.  When the nested result field of a response is absent (or falsy
    in any other way), and also when the result type is neither "streams"
    nor "matrix", [parseLogs] returns the empty sequence; it does not
    throw.  Reading the field never throws either. *)
Theorem parseLogs_empty_without_result_or_type (result : jsval) :
  (exists field, result_field result = Normal field) /\
  (exists tag, result_type result = Normal tag) /\
  (result_field result = Normal VUndefined -> Loki.parseLogs result = Normal []) /\
  (forall field, result_field result = Normal field -> JS.ToBoolean field = false ->
                 Loki.parseLogs result = Normal []) /\
  (forall tag, result_type result = Normal tag ->
               tag <> VStr "streams" -> tag <> VStr "matrix" ->
               Loki.parseLogs result = Normal []).
Proof.
  assert (Hfalsy : forall field, result_field result = Normal field ->
                                 JS.ToBoolean field = false ->
                                 Loki.parseLogs result = Normal []).
  { intros field Hfield Hf. unfold Loki.parseLogs. fold (result_field result).
    rewrite Hfield. next. now rewrite Hf. }
  split; [|split; [|split; [|split]]].
  - unfold result_field.
    destruct (get_opt_normal result "response") as [response ->]. next.
    destruct (get_opt_normal response "data") as [data ->]. next.
    apply get_opt_normal.
  - unfold result_type.
    destruct (get_opt_normal result "response") as [response ->]. next.
    destruct (get_opt_normal response "data") as [data ->]. next.
    apply get_opt_normal.
  - intros Hfield. now apply (Hfalsy VUndefined).
  - exact Hfalsy.
  - intros tag Htag Hs Hm. unfold result_type in Htag.
    unfold Loki.parseLogs, result_field in *.
    destruct (get_opt_normal result "response") as [response Hr].
    rewrite Hr in *. next in *.
    destruct (get_opt_normal response "data") as [data Hd].
    rewrite Hd in *. next in *.
    destruct (get_opt_normal data "result") as [field Hfield].
    rewrite Hfield. next.
    destruct (JS.ToBoolean field) eqn:Ht; [|reflexivity]. cbn [negb].
    assert (Hdata : JS.ToBoolean data = true).
    { destruct data; try reflexivity; cbn in Hfield; inversion Hfield; subst; discriminate Ht. }
    assert (Hresp : JS.ToBoolean response = true).
    { destruct response; try reflexivity; cbn in Hd; inversion Hd; subst; discriminate Hdata. }
    rewrite (get_opt_truthy _ _ _ Hr Hresp). next.
    rewrite (get_opt_truthy _ _ _ Hd Hdata). next.
    assert (Hget : Prop_access.get data "resultType" = Normal tag).
    { destruct data; try exact Htag; discriminate Hdata. }
    rewrite Hget. next.
    rewrite (get_opt_truthy _ _ _ Hfield Ht). next.
    assert (Hno : forall text, tag <> VStr text -> JS.is_string tag text = false).
    { intros text Hne. destruct tag; try reflexivity. cbn.
      destruct (String.eqb_spec s text); [subst; now destruct Hne|reflexivity]. }
    now rewrite (Hno "streams" Hs), (Hno "matrix" Hm).
Qed.

Lemma parseLogs_empty_without_result_or_type_witness :
  Loki.parseLogs (VObj [("response", VObj [("status", VNum 200)])]) = Normal [] /\
  Loki.parseLogs (response_of "vector" [VObj [("values", VArr [VArr [VStr "1"; VStr "x"]])]])
    = Normal [].
Proof.
  split.
  - exact (proj1 (proj2 (proj2 (parseLogs_empty_without_result_or_type
                                  (VObj [("response", VObj [("status", VNum 200)])]))))
             eq_refl).
  - refine (proj2 (proj2 (proj2 (proj2 (parseLogs_empty_without_result_or_type
                                          (response_of "vector" _)))))
              (VStr "vector") eq_refl _ _);
      discriminate.
Defined.

(** *** What holds of every record *)

Section Invariant.

Variable P : LogRecord -> Prop.

(** A callback keeps the records in [P]. *)
Definition keeps (f : list LogRecord -> completion (list LogRecord)) : Prop :=
  forall logs logs', Forall P logs -> f logs = Normal logs' -> Forall P logs'.

Hypothesis entry_keeps : forall owner key entry, keeps (Loki.parse_entry owner key entry).

Lemma each_keeps f elems : (forall x, keeps (f x)) -> keeps (each f elems).
Proof.
  intros Hf. induction elems as [|x elems IH]; intros logs logs' HP Hrun.
  - inversion Hrun; subst. exact HP.
  - cbn [each] in Hrun. destruct (f x logs) as [logs1|] eqn:Hx; [|discriminate Hrun].
    next in Hrun.
    exact (IH _ _ (Hf x _ _ HP Hx) Hrun).
Qed.

Lemma call_forEach_keeps a f : (forall x, keeps (f x)) -> keeps (call_forEach a f).
Proof.
  intros Hf logs logs' HP Hrun. destruct a; try discriminate Hrun.
  exact (each_keeps f elems Hf _ _ HP Hrun).
Qed.

Lemma parse_stream_keeps stream : keeps (Loki.parse_stream stream).
Proof.
  intros logs logs' HP Hrun. unfold Loki.parse_stream in Hrun.
  destruct (Prop_access.get stream "values") as [values|]; [|discriminate Hrun].
  next in Hrun.
  destruct (JS.ToBoolean values); cbn [negb] in Hrun.
  - exact (call_forEach_keeps _ _ (entry_keeps stream "stream") _ _ HP Hrun).
  - inversion Hrun; subst. exact HP.
Qed.

Lemma parse_bucket_keeps series bucket : keeps (Loki.parse_bucket series bucket).
Proof.
  intros logs logs' HP Hrun. unfold Loki.parse_bucket in Hrun.
  destruct (Prop_access.second bucket) as [logEntries|]; [|discriminate Hrun].
  next in Hrun.
  exact (each_keeps _ _ (entry_keeps series "metric") _ _ HP Hrun).
Qed.

Lemma parse_series_keeps series : keeps (Loki.parse_series series).
Proof.
  intros logs logs' HP Hrun. unfold Loki.parse_series in Hrun.
  destruct (Prop_access.get series "values") as [values|]; [|discriminate Hrun].
  next in Hrun.
  destruct (JS.ToBoolean values); cbn [negb] in Hrun.
  - exact (call_forEach_keeps _ _ (parse_bucket_keeps series) _ _ HP Hrun).
  - inversion Hrun; subst. exact HP.
Qed.

Lemma parseLogs_keeps result logs : Loki.parseLogs result = Normal logs -> Forall P logs.
Proof.
  unfold Loki.parseLogs. intros Hrun.
  repeat match type of Hrun with
         | (mbind _ ?c) = _ =>
             let x := fresh "x" in
             destruct c as [x|]; [next in Hrun|discriminate Hrun]
         | (if ?b then _ else _) = _ => destruct b
         end;
    try (inversion Hrun; subst; constructor).
  - exact (call_forEach_keeps _ _ parse_stream_keeps _ _ (@List.Forall_nil _ P) Hrun).
  - exact (call_forEach_keeps _ _ parse_series_keeps _ _ (@List.Forall_nil _ P) Hrun).
Qed.

End Invariant.

(** The millisecond timestamp of the claim C2: the nanoseconds divided by
    1,000,000, truncated to an integer. *)
Definition truncated_ms (timestampNs : jsval) : float :=
  match JS.truncate (JS.parseInt timestampNs) with
  | Some ns => JS.of_Z (Z.quot ns 1000000)
  | None => nan
  end.

(** What the code makes of a timestamp: the quotient as it is, a date from
    it, and the text of the date. *)
Definition derived (r : LogRecord) : Prop :=
  Log.timestampMs r = PrimFloat.div (JS.parseInt (Log.timestamp r)) 1000000 /\
  Log.date r = JS.new_Date (Log.timestampMs r) /\
  exists t, JS.time_value (Log.date r) = Some t /\
            JS.truncate (Log.timestampMs r) = Some t /\
            Log.dateISO r = JS.iso_string t.

Lemma new_Date_truncates x t :
  JS.time_value (JS.new_Date x) = Some t -> JS.truncate x = Some t.
Proof.
  unfold JS.new_Date. destruct (PrimFloat.leb (abs x) 8.64e15); [trivial|discriminate].
Qed.

Lemma parse_entry_derived owner key entry : keeps derived (Loki.parse_entry owner key entry).
Proof.
  intros logs logs' HP Hrun. unfold Loki.parse_entry in Hrun.
  destruct entry; try (inversion Hrun; subst; exact HP).
  destruct (length elems <? 2)%nat; [inversion Hrun; subst; exact HP|].
  unfold toISOString in Hrun.
  destruct (JS.time_value (JS.new_Date _)) as [t|] eqn:Ht; [|discriminate Hrun].
  next in Hrun.
  destruct (Prop_access.get owner key) as [labels|]; [|discriminate Hrun].
  next in Hrun. inversion Hrun; subst.
  apply Forall_app. split; [exact HP|]. constructor; [|constructor].
  unfold derived. cbn [Log.timestampMs Log.timestamp Log.date Log.dateISO].
  split; [reflexivity|]. split; [reflexivity|].
  exists t. split; [exact Ht|]. split; [|reflexivity].
  now apply new_Date_truncates.
Qed.

(** C2 (as amended).  For every record of [parseLogs], from the "streams"
    branch or the "matrix" branch, the millisecond timestamp is the
    floating-point quotient of the parsed nanosecond timestamp by
    1,000,000, not truncated; the date is made from that value, its time
    value being the value truncated to whole milliseconds.  A "streams"
    response with the single entry ["1000000000", "hello"] gives one
    record, with timestampMs 1000, the text "hello" as message and the
    date of 1000 ms after the epoch. *)
Theorem parseLogs_derives_timestamps (result : jsval) (logs : list LogRecord) :
  Loki.parseLogs result = Normal logs ->
  Forall derived logs /\
  (forall labels,
     Loki.parseLogs
       (response_of "streams"
          [VObj [("stream", VObj labels);
                 ("values", VArr [VArr [VStr "1000000000"; VStr "hello"]])]]) =
       Normal [mkLogRecord (VStr "1000000000") 1000 (JS.mkDate (Some 1000))
                 "1970-01-01T00:00:01.000Z" (VStr "hello") (VObj labels)]).
Proof.
  intros Hrun. split.
  - exact (parseLogs_keeps derived parse_entry_derived result logs Hrun).
  - intros labels. reflexivity.
Qed.

Lemma parseLogs_derives_timestamps_witness :
  Forall derived
    [mkLogRecord (VStr "1000000000") 1000 (JS.mkDate (Some 1000))
       "1970-01-01T00:00:01.000Z" (VStr "hello") (VObj [])].
Proof.
  exact (proj1 (parseLogs_derives_timestamps
                  (response_of "streams"
                     [VObj [("stream", VObj []);
                            ("values", VArr [VArr [VStr "1000000000"; VStr "hello"]])]])
                  _ eq_refl)).
Defined.

(** The claim C2 as it is worded makes the millisecond timestamp the
    truncated quotient: for 1,500,000 ns that is 1, and the record has
    1.5. *)
Lemma parseLogs_timestampMs_counterexample :
  exists r,
    Loki.parseLogs
      (response_of "streams" [VObj [("values", VArr [VArr [VStr "1500000"; VStr "x"]])]]) =
      Normal [r] /\
    Log.timestampMs r = 1.5%float /\
    truncated_ms (Log.timestamp r) = 1%float /\
    Log.timestampMs r <> truncated_ms (Log.timestamp r).
Proof.
  eexists. split; [reflexivity|]. cbn [Log.timestampMs Log.timestamp].
  split; [reflexivity|]. split; [reflexivity|].
  intros H. apply (f_equal (fun x => PrimFloat.eqb x 1)) in H. vm_compute in H.
  discriminate H.
Qed.

(** *** The "matrix" branch *)

(** An element of a "matrix" result: its metric and its buckets
    [[bucketTimestamp, payload]]. *)
Definition series_value (s : jsval * list (jsval * jsval)) : jsval :=
  VObj [("metric", fst s);
        ("values", VArr ((fun b => VArr [fst b; snd b]) <$> snd s))].

Definition matrix_response (series : list (jsval * list (jsval * jsval))) : jsval :=
  response_of "matrix" (series_value <$> series).

(** The rule of the claim C5: a payload that is a sequence whose first
    element is a sequence is a list of pairs, any other is a single
    pair. *)
Definition pairs_of (payload : jsval) : list jsval :=
  match payload with
  | VArr (VArr first :: rest) => VArr first :: rest
  | _ => [payload]
  end.

(** A sequence with at least two elements. *)
Definition is_pair (entry : jsval) : bool :=
  match entry with
  | VArr (_ :: _ :: _) => true
  | _ => false
  end.

(** The record of a pair, when its timestamp gives a date. *)
Definition record_of (labels pair : jsval) : option LogRecord :=
  match pair with
  | VArr (timestampNs :: message :: _) =>
      let ms := PrimFloat.div (JS.parseInt timestampNs) 1000000 in
      t ← JS.time_value (JS.new_Date ms);
      Some (mkLogRecord timestampNs ms (JS.new_Date ms) (JS.iso_string t)
              (default message (JS.JSON_parse message)) labels)
  | _ => None
  end.

(** The label set of a record: the metric, or [{}] without one. *)
Definition labels_of (metric : jsval) : jsval :=
  if JS.ToBoolean metric then metric else VObj [].

(** The pairs of a result that have at least two elements, each with the
    label set of its element, in the order of the result. *)
Definition bucket_pairs (metric : jsval) (bucket : jsval * jsval) : list (jsval * jsval) :=
  (fun pair => (labels_of metric, pair)) <$> List.filter is_pair (pairs_of (snd bucket)).

Definition series_pairs (s : jsval * list (jsval * jsval)) : list (jsval * jsval) :=
  flat_map (bucket_pairs (fst s)) (snd s).

Definition all_pairs (series : list (jsval * list (jsval * jsval))) : list (jsval * jsval) :=
  flat_map series_pairs series.

(** A record is the one of a pair under its labels. *)
Definition record_for (lp : jsval * jsval) (r : LogRecord) : Prop :=
  record_of (fst lp) (snd lp) = Some r.

(** The timestamp of a pair gives a date in the range of Date. *)
Definition dated (lp : jsval * jsval) : Prop :=
  match snd lp with
  | VArr (timestampNs :: _) =>
      is_Some (JS.time_value (JS.new_Date (PrimFloat.div (JS.parseInt timestampNs) 1000000)))
  | _ => True
  end.

Lemma parse_entry_skip owner key entry logs :
  is_pair entry = false -> Loki.parse_entry owner key entry logs = Normal logs.
Proof.
  destruct entry as [| | | | |elems| | |]; try reflexivity.
  destruct elems as [|a [|b elems]]; [reflexivity|reflexivity|discriminate].
Qed.

Lemma parse_entry_pair owner key metric entry logs :
  is_pair entry = true ->
  dated (labels_of metric, entry) ->
  Prop_access.get owner key = Normal metric ->
  exists r, Loki.parse_entry owner key entry logs = Normal (logs ++ [r]) /\
            record_for (labels_of metric, entry) r.
Proof.
  intros Hpair Hdated Hget.
  destruct entry as [| | | | |elems| | |]; try discriminate Hpair.
  destruct elems as [|timestampNs [|message elems]]; try discriminate Hpair.
  unfold dated in Hdated. cbn [snd] in Hdated. destruct Hdated as [t Ht].
  unfold Loki.parse_entry, record_for, record_of, toISOString.
  cbn [length Nat.ltb Nat.leb Prop_access.index nth fst snd].
  rewrite Ht, Hget. cbn [mbind completion_bind option_bind].
  eexists. split; reflexivity.
Qed.

Lemma each_entries owner key metric entries : forall logs,
  Prop_access.get owner key = Normal metric ->
  Forall dated ((fun pair => (labels_of metric, pair)) <$> List.filter is_pair entries) ->
  exists rs,
    each (Loki.parse_entry owner key) entries logs = Normal (logs ++ rs) /\
    Forall2 record_for
      ((fun pair => (labels_of metric, pair)) <$> List.filter is_pair entries) rs.
Proof.
  intros logs Hget. revert logs.
  induction entries as [|entry entries IH]; intros logs Hdated.
  - exists []. split; [cbn; now rewrite app_nil_r|constructor].
  - cbn [each List.filter] in *. destruct (is_pair entry) eqn:Hpair.
    + cbn [fmap list_fmap] in *. inversion Hdated as [|? ? Hd Hrest]; subst.
      destruct (parse_entry_pair owner key metric entry logs Hpair Hd Hget) as (r & -> & Hr).
      next.
      destruct (IH (logs ++ [r]) Hrest) as (rs & -> & Hrs).
      exists (r :: rs). split; [now rewrite <- app_assoc|now constructor].
    + rewrite (parse_entry_skip owner key entry logs Hpair). next.
      exact (IH logs Hdated).
Qed.

Lemma bucket_entries payload :
  match payload with
  | VArr inner => if JS.isArray (Prop_access.index inner 0) then inner else [payload]
  | _ => [payload]
  end = pairs_of payload.
Proof.
  destruct payload as [| | | | |inner| | |]; try reflexivity.
  destruct inner as [|first rest]; [reflexivity|].
  destruct first; reflexivity.
Qed.

Lemma parse_bucket_pairs s bucket logs :
  Forall dated (bucket_pairs (fst s) bucket) ->
  exists rs,
    Loki.parse_bucket (series_value s) (VArr [fst bucket; snd bucket]) logs =
      Normal (logs ++ rs) /\
    Forall2 record_for (bucket_pairs (fst s) bucket) rs.
Proof.
  intros Hdated. unfold Loki.parse_bucket.
  cbn [Prop_access.second Prop_access.index nth mbind completion_bind].
  rewrite bucket_entries.
  apply each_entries; [reflexivity|exact Hdated].
Qed.

Lemma each_buckets s buckets : forall logs,
  Forall dated (flat_map (bucket_pairs (fst s)) buckets) ->
  exists rs,
    each (Loki.parse_bucket (series_value s))
      ((fun b => VArr [fst b; snd b]) <$> buckets) logs = Normal (logs ++ rs) /\
    Forall2 record_for (flat_map (bucket_pairs (fst s)) buckets) rs.
Proof.
  induction buckets as [|bucket buckets IH]; intros logs Hdated.
  - exists []. split; [cbn; now rewrite app_nil_r|constructor].
  - cbn [flat_map fmap list_fmap each] in *.
    apply Forall_app in Hdated as [Hb Hrest].
    destruct (parse_bucket_pairs s bucket logs Hb) as (rs1 & -> & Hrs1).
    next.
    destruct (IH (logs ++ rs1) Hrest) as (rs2 & -> & Hrs2).
    exists (rs1 ++ rs2). split; [now rewrite <- app_assoc|now apply Forall2_app].
Qed.

Lemma parse_series_pairs s logs :
  Forall dated (series_pairs s) ->
  exists rs,
    Loki.parse_series (series_value s) logs = Normal (logs ++ rs) /\
    Forall2 record_for (series_pairs s) rs.
Proof.
  intros Hdated. unfold Loki.parse_series.
  cbn [series_value Prop_access.get Prop_access.own String.eqb Ascii.eqb Bool.eqb
       mbind completion_bind JS.ToBoolean negb call_forEach].
  now apply each_buckets.
Qed.

Lemma each_series series : forall logs,
  Forall dated (all_pairs series) ->
  exists rs,
    each Loki.parse_series (series_value <$> series) logs = Normal (logs ++ rs) /\
    Forall2 record_for (all_pairs series) rs.
Proof.
  induction series as [|s series IH]; intros logs Hdated.
  - exists []. split; [cbn; now rewrite app_nil_r|constructor].
  - unfold all_pairs in *. cbn [flat_map fmap list_fmap each] in *.
    apply Forall_app in Hdated as [Hs Hrest].
    destruct (parse_series_pairs s logs Hs) as (rs1 & -> & Hrs1).
    next.
    destruct (IH (logs ++ rs1) Hrest) as (rs2 & -> & Hrs2).
    exists (rs1 ++ rs2). split; [now rewrite <- app_assoc|now apply Forall2_app].
Qed.

(** C5 (as amended).  In the "matrix" branch, the payload of every bucket
    of every element is read by the self-describing rule (a sequence whose
    first element is a sequence is a list of pairs, anything else a single
    pair), and when the timestamp of every resulting pair with at least
    two elements gives a date in the range of Date, [parseLogs] returns
    one record per such pair, in order, with as label set the metric of
    the element, or [{}] when it has none.  A bucket with timestamp 1000
    whose payload is the one-pair list of the text 2000000000 and the JSON
    text of [{a: 1}] gives one record, whose message is the decoded
    object. *)
Theorem parseLogs_matrix_records (series : list (jsval * list (jsval * jsval))) :
  Forall dated (all_pairs series) ->
  (exists records,
     Loki.parseLogs (matrix_response series) = Normal records /\
     Forall2 record_for (all_pairs series) records) /\
  (forall metric,
     exists r,
       Loki.parseLogs
         (matrix_response
            [(metric,
              [(VNum 1000,
                VArr [VArr [VStr "2000000000";
                            VStr ("{" +:+ dq +:+ "a" +:+ dq +:+ ":1}")]])])]) = Normal [r] /\
       Log.message r = VObj [("a", VNum 1)] /\
       Log.labels r = labels_of metric).
Proof.
  intros Hdated. split.
  - destruct (each_series series [] Hdated) as (rs & Hrun & Hrs).
    exists rs. split; [|exact Hrs].
    unfold Loki.parseLogs, matrix_response, response_of.
    cbn [Prop_access.get_opt Prop_access.get Prop_access.own String.eqb Ascii.eqb Bool.eqb
         mbind completion_bind JS.ToBoolean negb JS.is_string call_forEach].
    exact Hrun.
  - intros metric. eexists. split; [reflexivity|]. split; reflexivity.
Qed.

Lemma parseLogs_matrix_records_witness :
  exists records,
    Loki.parseLogs
      (matrix_response
         [(VObj [("job", VStr "api")],
           [(VNum 1000, VArr [VStr "2000000000"; VStr "one"]);
            (VNum 2000, VArr [VArr [VStr "3000000000"; VStr "two"]; VArr [VStr "short"]])])])
      = Normal records /\
    length records = 2%nat.
Proof.
  assert (Hdated : Forall dated
            (all_pairs
               [(VObj [("job", VStr "api")],
                 [(VNum 1000, VArr [VStr "2000000000"; VStr "one"]);
                  (VNum 2000,
                   VArr [VArr [VStr "3000000000"; VStr "two"]; VArr [VStr "short"]])])]))
    by (repeat constructor; vm_compute; eauto).
  destruct (parseLogs_matrix_records _ Hdated) as [(records & Hrun & Hrecords) _].
  exists records. split; [exact Hrun|].
  symmetry. exact (Forall2_length _ _ _ Hrecords).
Defined.

(** The claim C5 as it is worded emits a record for every pair with two
    elements; a pair whose timestamp is not a number, or lies beyond the
    range of Date, makes [parseLogs] throw instead. *)
Lemma parseLogs_matrix_counterexample :
  is_pair (VArr [VStr "soon"; VStr "x"]) = true /\
  Loki.parseLogs
    (matrix_response [(VObj [], [(VNum 1000, VArr [VStr "soon"; VStr "x"])])]) =
    Throw (RangeError "Invalid time value") /\
  is_pair (VArr [VStr "9000000000000000000000"; VStr "x"]) = true /\
  Loki.parseLogs
    (matrix_response
       [(VObj [], [(VNum 1000, VArr [VStr "9000000000000000000000"; VStr "x"])])]) =
    Throw (RangeError "Invalid time value").
Proof. repeat split; reflexivity. Qed.

(** * Further properties of the code *)

(** ** The requests of the read operations *)

(** The request parameters taken from an options object: of the given
    names, in their order, those whose value is truthy. *)
Definition optional (o : object) (keys : list string) : JS.URLSearchParams :=
  omap (fun k => if JS.ToBoolean (Prop_access.own o k)
                 then Some (k, JS.to_usv (JS.ToString (Prop_access.own o k)))
                 else None) keys.

(** The second argument of every request of a reader. *)
Definition get_init (options : object) : request_init :=
  mkInit "GET" (Read.headers options) None.

(** What [query] and [queryRange] make of a response. *)
Definition answer_of (queryOptions : object) (response : jsval) : completion Read.answer :=
  if JS.ToBoolean (Prop_access.own queryOptions "parse")
  then match Loki.parseLogs response with
       | Normal logs => Normal (Read.Parsed logs)
       | Throw e => Throw e
       end
  else Normal (Read.Raw response).

(** What a read operation settles to once its request is made. *)
Definition settled {A} (svc : service) (options : object) (url prefix : string)
  (k : jsval -> completion A) : completion A :=
  match svc url (get_init options) with
  | Normal response => k response
  | Throw error => Throw (raised prefix error)
  end.

Definition requested (options : object) (url : string) (w : world) : world :=
  mkWorld (heap w) (trace w ++ [Request url (get_init options)]).

Lemma get_request_run svc options url prefix w :
  Read.get_request svc options url prefix w =
    (settled svc options url prefix Normal, requested options url w).
Proof.
  unfold settled, requested, get_init.
  destruct (svc url (mkInit "GET" (Read.headers options) None)) eqn:Hsvc.
  - now apply get_request_resolved.
  - now apply get_request_rejected.
Qed.

Lemma parse_if_run queryOptions response w :
  Read.parse_if queryOptions response w = (answer_of queryOptions response, w).
Proof.
  unfold Read.parse_if, answer_of.
  destruct (JS.ToBoolean (Prop_access.own queryOptions "parse")); [|reflexivity].
  unfold lift, mbind, M_bind. destruct (Loki.parseLogs response); reflexivity.
Qed.

Lemma then_parse_run svc options url prefix queryOptions w :
  (Read.get_request svc options url prefix ≫= Read.parse_if queryOptions) w =
    (settled svc options url prefix (answer_of queryOptions), requested options url w).
Proof.
  unfold mbind, M_bind. rewrite get_request_run. unfold settled.
  destruct (svc url (get_init options)); [apply parse_if_run|reflexivity].
Qed.

Lemma query_params query queryOptions :
  Read.append_if queryOptions "end"
    (Read.append_if queryOptions "start"
       (Read.append_if queryOptions "limit" (JS.append [] "query" query))) =
  ("query", JS.to_usv (JS.ToString query)) :: optional queryOptions ["limit"; "start"; "end"].
Proof.
  unfold Read.append_if, optional, JS.append. cbn [omap list_omap].
  destruct (JS.ToBoolean (Prop_access.own queryOptions "limit")),
           (JS.ToBoolean (Prop_access.own queryOptions "start")),
           (JS.ToBoolean (Prop_access.own queryOptions "end")); reflexivity.
Qed.

Lemma queryRange_params query start end_ queryOptions :
  Read.append_if queryOptions "limit"
    (Read.append_if queryOptions "step"
       (JS.append (JS.append (JS.append [] "query" query) "start" start) "end" end_)) =
  [("query", JS.to_usv (JS.ToString query)); ("start", JS.to_usv (JS.ToString start));
   ("end", JS.to_usv (JS.ToString end_))] ++ optional queryOptions ["step"; "limit"].
Proof.
  unfold Read.append_if, optional, JS.append. cbn [omap list_omap].
  destruct (JS.ToBoolean (Prop_access.own queryOptions "step")),
           (JS.ToBoolean (Prop_access.own queryOptions "limit")); reflexivity.
Qed.

Lemma range_params queryOptions :
  Read.append_if queryOptions "end" (Read.append_if queryOptions "start" []) =
  optional queryOptions ["start"; "end"].
Proof.
  unfold Read.append_if, optional, JS.append. cbn [omap list_omap].
  destruct (JS.ToBoolean (Prop_access.own queryOptions "start")),
           (JS.ToBoolean (Prop_access.own queryOptions "end")); reflexivity.
Qed.

(** The URL of [query]. *)
Definition query_url (query : jsval) (queryOptions : object) : string :=
  "/loki/api/v1/query?" +:+
  JS.params_toString
    (("query", JS.to_usv (JS.ToString query)) :: optional queryOptions ["limit"; "start"; "end"]).

(** The URL of [queryRange]. *)
Definition queryRange_url (query start end_ : jsval) (queryOptions : object) : string :=
  "/loki/api/v1/query_range?" +:+
  JS.params_toString
    ([("query", JS.to_usv (JS.ToString query)); ("start", JS.to_usv (JS.ToString start));
      ("end", JS.to_usv (JS.ToString end_))] ++ optional queryOptions ["step"; "limit"]).

Lemma query_run svc options query queryOptions w :
  JS.ToBoolean query = true ->
  Read.query svc options query queryOptions w =
    (settled svc options (query_url query queryOptions) "Loki query failed: "
       (answer_of queryOptions),
     requested options (query_url query queryOptions) w).
Proof.
  intros Hq. unfold Read.query. rewrite Hq. cbn [negb]. cbv zeta.
  rewrite query_params. apply then_parse_run.
Qed.

Lemma queryRange_run svc options query start end_ queryOptions w :
  JS.ToBoolean query = true -> JS.ToBoolean start = true -> JS.ToBoolean end_ = true ->
  Read.queryRange svc options query start end_ queryOptions w =
    (settled svc options (queryRange_url query start end_ queryOptions)
       "Loki query range failed: " (answer_of queryOptions),
     requested options (queryRange_url query start end_ queryOptions) w).
Proof.
  intros Hq Hs He. unfold Read.queryRange. rewrite Hq, Hs, He. cbn [negb orb]. cbv zeta.
  rewrite queryRange_params. apply then_parse_run.
Qed.

(** X1.  [query] with a truthy query makes exactly one request, a GET of
    [/loki/api/v1/query?] followed by the parameter [query] and then, in
    this order and only when their value is truthy, [limit], [start] and
    [end] (so that a limit or a start of 0 is not sent); without the
    [parse] option it resolves to the response of the transport as it
    came.  With a falsy query it throws and leaves the world as it was. *)
Theorem query_sends_one_request
  (svc : service) (options : object) (query : jsval) (queryOptions : object) (w : world) :
  let run := Read.query svc options query queryOptions w in
  let url := query_url query queryOptions in
  (JS.ToBoolean query = false ->
   run = (Throw (Gigapipe (mkGigapipeError "Query parameter is required" VUndefined)), w)) /\
  (JS.ToBoolean query = true ->
   heap (snd run) = heap w /\
   trace (snd run) = trace w ++ [Request url (mkInit "GET" (Read.headers options) None)] /\
   (forall response,
      JS.ToBoolean (Prop_access.own queryOptions "parse") = false ->
      svc url (mkInit "GET" (Read.headers options) None) = Normal response ->
      fst run = Normal (Read.Raw response))).
Proof.
  cbv zeta. split.
  - intros Hq. unfold Read.query. now rewrite Hq.
  - intros Hq. rewrite (query_run svc options query queryOptions w Hq).
    split; [reflexivity|]. split; [reflexivity|].
    intros response Hparse Hsvc. cbn [fst]. unfold settled, get_init, answer_of.
    now rewrite Hsvc, Hparse.
Qed.

Lemma query_sends_one_request_witness :
  trace (snd (Read.query (fun _ _ => Normal VNull) [("orgId", VStr "tenant")]
                (VStr "{job}") [("limit", VNum 0); ("start", VNum 5)] (mkWorld ∅ []))) =
    [Request "/loki/api/v1/query?query=%7Bjob%7D&start=5"
       (mkInit "GET" [("X-Scope-OrgID", VStr "tenant")] None)].
Proof.
  exact (proj1 (proj2 (proj2 (query_sends_one_request (fun _ _ => Normal VNull)
                                [("orgId", VStr "tenant")] (VStr "{job}")
                                [("limit", VNum 0); ("start", VNum 5)] (mkWorld ∅ []))
                         eq_refl))).
Defined.

(** X2.  [queryRange] with truthy query, start and end makes exactly one
    request, a GET of [/loki/api/v1/query_range?] followed by the
    parameters [query], [start] and [end] and then, only when their value
    is truthy, [step] and [limit]; without the [parse] option it resolves
    to the response of the transport as it came. *)
Theorem queryRange_sends_one_request
  (svc : service) (options : object) (query start end_ : jsval) (queryOptions : object)
  (w : world) :
  JS.ToBoolean query = true -> JS.ToBoolean start = true -> JS.ToBoolean end_ = true ->
  let run := Read.queryRange svc options query start end_ queryOptions w in
  let url := queryRange_url query start end_ queryOptions in
  heap (snd run) = heap w /\
  trace (snd run) = trace w ++ [Request url (mkInit "GET" (Read.headers options) None)] /\
  (forall response,
     JS.ToBoolean (Prop_access.own queryOptions "parse") = false ->
     svc url (mkInit "GET" (Read.headers options) None) = Normal response ->
     fst run = Normal (Read.Raw response)).
Proof.
  intros Hq Hs He. cbv zeta.
  rewrite (queryRange_run svc options query start end_ queryOptions w Hq Hs He).
  split; [reflexivity|]. split; [reflexivity|].
  intros response Hparse Hsvc. cbn [fst]. unfold settled, get_init, answer_of.
  now rewrite Hsvc, Hparse.
Qed.

Lemma queryRange_sends_one_request_witness :
  trace (snd (Read.queryRange (fun _ _ => Normal VNull) [] (VStr "up") (VNum 10) (VNum 20)
                [("step", VNum 5); ("limit", VNull)] (mkWorld ∅ []))) =
    [Request "/loki/api/v1/query_range?query=up&start=10&end=20&step=5"
       (mkInit "GET" [] None)].
Proof.
  exact (proj1 (proj2 (queryRange_sends_one_request (fun _ _ => Normal VNull) []
                         (VStr "up") (VNum 10) (VNum 20)
                         [("step", VNum 5); ("limit", VNull)] (mkWorld ∅ [])
                         eq_refl eq_refl eq_refl))).
Defined.

(** The path of [labels] and [labelValues] with their parameters: the
    question mark is there only with a parameter. *)
Definition ranged (path : string) (queryOptions : object) : string :=
  if JS.ToBoolean (Prop_access.own queryOptions "start") ||
     JS.ToBoolean (Prop_access.own queryOptions "end")
  then path +:+ "?" +:+ JS.params_toString (optional queryOptions ["start"; "end"])
  else path.

Lemma with_query_ranged path queryOptions :
  Read.with_query path (optional queryOptions ["start"; "end"]) = ranged path queryOptions.
Proof.
  unfold Read.with_query, ranged, optional. cbn [omap list_omap].
  destruct (JS.ToBoolean (Prop_access.own queryOptions "start")),
           (JS.ToBoolean (Prop_access.own queryOptions "end")); reflexivity.
Qed.

Lemma labels_run svc options queryOptions w :
  Read.labels svc options queryOptions w =
    (settled svc options (ranged "/loki/api/v1/labels" queryOptions)
       "Loki labels retrieval failed: " Normal,
     requested options (ranged "/loki/api/v1/labels" queryOptions) w).
Proof.
  unfold Read.labels. cbv zeta. rewrite range_params, with_query_ranged.
  apply get_request_run.
Qed.

Lemma labelValues_run svc options labelName queryOptions w :
  JS.ToBoolean labelName = true ->
  let url := ranged ("/loki/api/v1/label/" +:+ JS.ToString labelName +:+ "/values")
               queryOptions in
  Read.labelValues svc options labelName queryOptions w =
    (settled svc options url "Loki label values retrieval failed: " Normal,
     requested options url w).
Proof.
  intros Hl. unfold Read.labelValues. rewrite Hl. cbn [negb]. cbv zeta.
  rewrite range_params, with_query_ranged. apply get_request_run.
Qed.

(** X3.  [labels] always makes exactly one request, a GET; its URL is
    [/loki/api/v1/labels] alone when neither [start] nor [end] is truthy,
    and carries after a question mark the truthy ones of the two
    otherwise; it resolves to the response of the transport as it came. *)
Theorem labels_sends_one_request
  (svc : service) (options : object) (queryOptions : object) (w : world) :
  let run := Read.labels svc options queryOptions w in
  let url := ranged "/loki/api/v1/labels" queryOptions in
  heap (snd run) = heap w /\
  trace (snd run) = trace w ++ [Request url (mkInit "GET" (Read.headers options) None)] /\
  (JS.ToBoolean (Prop_access.own queryOptions "start") = false ->
   JS.ToBoolean (Prop_access.own queryOptions "end") = false ->
   url = "/loki/api/v1/labels") /\
  (forall response,
     svc url (mkInit "GET" (Read.headers options) None) = Normal response ->
     fst run = Normal response).
Proof.
  cbv zeta. rewrite labels_run.
  split; [reflexivity|]. split; [reflexivity|]. split.
  - intros Hs He. unfold ranged. now rewrite Hs, He.
  - intros response Hsvc. cbn [fst]. unfold settled, get_init. now rewrite Hsvc.
Qed.

Lemma labels_sends_one_request_witness :
  trace (snd (Read.labels (fun _ _ => Normal VNull) [] [("start", VNum 0)] (mkWorld ∅ []))) =
    [Request "/loki/api/v1/labels" (mkInit "GET" [] None)].
Proof.
  exact (proj1 (proj2 (labels_sends_one_request (fun _ _ => Normal VNull) []
                         [("start", VNum 0)] (mkWorld ∅ [])))).
Defined.

(** X4.  [labelValues] throws without any request when the label name is
    falsy; otherwise it makes exactly one request, a GET whose path holds
    the label name as it prints, not encoded, between
    [/loki/api/v1/label/] and [/values], and resolves to the response of
    the transport as it came. *)
Theorem labelValues_sends_one_request
  (svc : service) (options : object) (labelName : jsval) (queryOptions : object)
  (w : world) :
  let run := Read.labelValues svc options labelName queryOptions w in
  let url := ranged ("/loki/api/v1/label/" +:+ JS.ToString labelName +:+ "/values")
               queryOptions in
  (JS.ToBoolean labelName = false ->
   run = (Throw (Gigapipe (mkGigapipeError "Label name parameter is required" VUndefined)),
          w)) /\
  (JS.ToBoolean labelName = true ->
   heap (snd run) = heap w /\
   trace (snd run) = trace w ++ [Request url (mkInit "GET" (Read.headers options) None)] /\
   (forall response,
      svc url (mkInit "GET" (Read.headers options) None) = Normal response ->
      fst run = Normal response)).
Proof.
  cbv zeta. split.
  - intros Hl. unfold Read.labelValues. now rewrite Hl.
  - intros Hl. rewrite (labelValues_run svc options labelName queryOptions w Hl). cbv zeta.
    split; [reflexivity|]. split; [reflexivity|].
    intros response Hsvc. cbn [fst]. unfold settled, get_init. now rewrite Hsvc.
Qed.

Lemma labelValues_sends_one_request_witness :
  trace (snd (Read.labelValues (fun _ _ => Normal VNull) [] (VStr "a/b c") [("end", VNum 9)]
                (mkWorld ∅ []))) =
    [Request "/loki/api/v1/label/a/b c/values?end=9" (mkInit "GET" [] None)].
Proof.
  exact (proj1 (proj2 (proj2 (labelValues_sends_one_request (fun _ _ => Normal VNull) []
                                (VStr "a/b c") [("end", VNum 9)] (mkWorld ∅ []))
                         eq_refl))).
Defined.

(** ** [series] on arrays *)

Lemma series_run svc options match_ queryOptions w :
  Read.series svc options match_ queryOptions w =
    match Read.series_params match_ queryOptions with
    | Normal params =>
        (settled svc options ("/loki/api/v1/series?" +:+ JS.params_toString params)
           "Loki series retrieval failed: " Normal,
         requested options ("/loki/api/v1/series?" +:+ JS.params_toString params) w)
    | Throw e => (Throw e, w)
    end.
Proof.
  unfold Read.series, lift, mbind, M_bind.
  destruct (Read.series_params match_ queryOptions); [apply get_request_run|reflexivity].
Qed.



(** ** What the read operations leave alone *)

(** From [w] to [w'] no buffer has changed and at most one event has
    happened, a GET request with the headers of the reader and no body. *)
Definition read_only (options : object) (w w' : world) : Prop :=
  heap w' = heap w /\
  (trace w' = trace w \/
   exists url, trace w' = trace w ++ [Request url (mkInit "GET" (Read.headers options) None)]).

Lemma requested_read_only options url w : read_only options w (requested options url w).
Proof. split; [reflexivity|]. right. now exists url. Qed.

Lemma same_read_only options w : read_only options w w.
Proof. split; [reflexivity|now left]. Qed.

(** X6.  None of the five read operations, whatever its arguments and
    whatever the transport answers, calls a method of a buffer or changes
    one, and none makes more than one request; the request is a GET
    without a body whose only possible header is the organization id. *)
Theorem read_operations_are_read_only (svc : service) (options : object) (w : world) :
  (forall query queryOptions,
     read_only options w (snd (Read.query svc options query queryOptions w))) /\
  (forall query start end_ queryOptions,
     read_only options w (snd (Read.queryRange svc options query start end_ queryOptions w))) /\
  (forall queryOptions,
     read_only options w (snd (Read.labels svc options queryOptions w))) /\
  (forall labelName queryOptions,
     read_only options w (snd (Read.labelValues svc options labelName queryOptions w))) /\
  (forall match_ queryOptions,
     read_only options w (snd (Read.series svc options match_ queryOptions w))) /\
  (Read.headers options = [] \/
   Read.headers options = [("X-Scope-OrgID", Prop_access.own options "orgId")]).
Proof.
  split; [|split; [|split; [|split; [|split]]]].
  - intros query queryOptions. destruct (JS.ToBoolean query) eqn:Hq.
    + rewrite query_run by exact Hq. apply requested_read_only.
    + unfold Read.query. rewrite Hq. apply same_read_only.
  - intros query start end_ queryOptions.
    destruct (JS.ToBoolean query) eqn:Hq, (JS.ToBoolean start) eqn:Hs,
             (JS.ToBoolean end_) eqn:He;
      try (rewrite queryRange_run by assumption; apply requested_read_only);
      unfold Read.queryRange; rewrite Hq, ?Hs, ?He; apply same_read_only.
  - intros queryOptions. rewrite labels_run. apply requested_read_only.
  - intros labelName queryOptions. destruct (JS.ToBoolean labelName) eqn:Hl.
    + rewrite labelValues_run by exact Hl. apply requested_read_only.
    + unfold Read.labelValues. rewrite Hl. apply same_read_only.
  - intros match_ queryOptions. rewrite series_run.
    destruct (Read.series_params match_ queryOptions);
      [apply requested_read_only|apply same_read_only].
  - unfold Read.headers, set_if.
    destruct (JS.ToBoolean (Prop_access.own options "orgId")); [right|left]; reflexivity.
Qed.

(** ** The errors of [parseLogs] *)

(** An error of the runtime: a TypeError or a RangeError. *)
Definition native (e : exn) : Prop :=
  exists msg, e = TypeError msg \/ e = RangeError msg.

(** A callback throws errors of the runtime only. *)
Definition throws_native (f : list LogRecord -> completion (list LogRecord)) : Prop :=
  forall logs e, f logs = Throw e -> native e.

Lemma get_throws v k e : Prop_access.get v k = Throw e -> native e.
Proof.
  destruct v; cbn; intros H; try discriminate H;
    try (inversion H; subst; eexists; left; reflexivity).
  - destruct (String.eqb k "length"); discriminate H.
  - destruct (String.eqb k "length"); [discriminate H|].
    destruct (String.eqb k "values"); [discriminate H|].
    destruct (JS.array_index k); discriminate H.
Qed.

Lemma second_throws v e : Prop_access.second v = Throw e -> native e.
Proof.
  destruct v; cbn; intros H; try discriminate H;
    try (inversion H; subst; eexists; left; reflexivity).
  destruct s as [|c s]; [discriminate H|].
  destruct (substring _ _ _); discriminate H.
Qed.

Lemma parse_entry_throws owner key entry : throws_native (Loki.parse_entry owner key entry).
Proof.
  intros logs e Hrun. unfold Loki.parse_entry in Hrun.
  destruct entry; try discriminate Hrun.
  destruct (length elems <? 2)%nat; [discriminate Hrun|].
  unfold toISOString in Hrun.
  destruct (JS.time_value (JS.new_Date _)) as [t|].
  - next in Hrun. destruct (Prop_access.get owner key) eqn:Hget; [discriminate Hrun|].
    next in Hrun. inversion Hrun; subst. exact (get_throws _ _ _ Hget).
  - next in Hrun. inversion Hrun; subst. eexists. right. reflexivity.
Qed.

Lemma each_throws f elems : (forall x, throws_native (f x)) -> throws_native (each f elems).
Proof.
  intros Hf. induction elems as [|x elems IH]; intros logs e Hrun.
  - discriminate Hrun.
  - cbn [each] in Hrun. destruct (f x logs) as [logs1|e1] eqn:Hx; next in Hrun.
    + exact (IH _ _ Hrun).
    + inversion Hrun; subst. exact (Hf x _ _ Hx).
Qed.

Lemma call_forEach_throws a f : (forall x, throws_native (f x)) -> throws_native (call_forEach a f).
Proof.
  intros Hf logs e Hrun. destruct a;
    try (inversion Hrun; subst; eexists; left; reflexivity).
  exact (each_throws f elems Hf _ _ Hrun).
Qed.

Lemma parse_stream_throws stream : throws_native (Loki.parse_stream stream).
Proof.
  intros logs e Hrun. unfold Loki.parse_stream in Hrun.
  destruct (Prop_access.get stream "values") as [values|e1] eqn:Hget; next in Hrun.
  - destruct (JS.ToBoolean values); cbn [negb] in Hrun; [|discriminate Hrun].
    exact (call_forEach_throws _ _ (parse_entry_throws stream "stream") _ _ Hrun).
  - inversion Hrun; subst. exact (get_throws _ _ _ Hget).
Qed.

Lemma parse_bucket_throws series bucket : throws_native (Loki.parse_bucket series bucket).
Proof.
  intros logs e Hrun. unfold Loki.parse_bucket in Hrun.
  destruct (Prop_access.second bucket) as [logEntries|e1] eqn:Hsecond; next in Hrun.
  - exact (each_throws _ _ (parse_entry_throws series "metric") _ _ Hrun).
  - inversion Hrun; subst. exact (second_throws _ _ Hsecond).
Qed.

Lemma parse_series_throws series : throws_native (Loki.parse_series series).
Proof.
  intros logs e Hrun. unfold Loki.parse_series in Hrun.
  destruct (Prop_access.get series "values") as [values|e1] eqn:Hget; next in Hrun.
  - destruct (JS.ToBoolean values); cbn [negb] in Hrun; [|discriminate Hrun].
    exact (call_forEach_throws _ _ (parse_bucket_throws series) _ _ Hrun).
  - inversion Hrun; subst. exact (get_throws _ _ _ Hget).
Qed.

Lemma parseLogs_throws result e : Loki.parseLogs result = Throw e -> native e.
Proof.
  unfold Loki.parseLogs. intros Hrun.
  destruct (get_opt_normal result "response") as [r0 H0]. rewrite H0 in Hrun. next in Hrun.
  destruct (get_opt_normal r0 "data") as [d0 H1]. rewrite H1 in Hrun. next in Hrun.
  destruct (get_opt_normal d0 "result") as [g H2]. rewrite H2 in Hrun. next in Hrun.
  destruct (JS.ToBoolean g); cbn [negb] in Hrun; [|discriminate Hrun].
  repeat match type of Hrun with
         | (mbind _ ?c) = _ =>
             let x := fresh "x" in
             let Hx := fresh "Hx" in
             destruct c as [x|] eqn:Hx;
             [next in Hrun
             |next in Hrun; inversion Hrun; subst; exact (get_throws _ _ _ Hx)]
         end.
  destruct (JS.is_string x1 "streams").
  - exact (call_forEach_throws _ _ parse_stream_throws _ _ Hrun).
  - destruct (JS.is_string x1 "matrix"); [|discriminate Hrun].
    exact (call_forEach_throws _ _ parse_series_throws _ _ Hrun).
Qed.

(** X7.  With the [parse] option, [query] and [queryRange] hand the
    response of the transport to [parseLogs] after the handler of
    transport errors: records are resolved as they are, and an error of
    [parseLogs] is thrown as it is, not wrapped.  It is then a TypeError
    or a RangeError of the runtime, so that an operation that got a
    response never throws a [GigapipeError]. *)
Theorem parse_option_errors_are_not_wrapped
  (svc : service) (options : object) (query : jsval) (queryOptions : object) (w : world)
  (response : jsval) :
  JS.ToBoolean query = true ->
  JS.ToBoolean (Prop_access.own queryOptions "parse") = true ->
  (svc (query_url query queryOptions) (mkInit "GET" (Read.headers options) None) =
     Normal response ->
   fst (Read.query svc options query queryOptions w) =
     match Loki.parseLogs response with
     | Normal logs => Normal (Read.Parsed logs)
     | Throw e => Throw e
     end) /\
  (forall start end_,
     JS.ToBoolean start = true -> JS.ToBoolean end_ = true ->
     svc (queryRange_url query start end_ queryOptions)
       (mkInit "GET" (Read.headers options) None) = Normal response ->
     fst (Read.queryRange svc options query start end_ queryOptions w) =
       match Loki.parseLogs response with
       | Normal logs => Normal (Read.Parsed logs)
       | Throw e => Throw e
       end) /\
  (forall e, Loki.parseLogs response = Throw e ->
             native e /\ forall g, e <> Gigapipe g).
Proof.
  intros Hq Hparse. split; [|split].
  - intros Hsvc. rewrite query_run by exact Hq. cbn [fst].
    unfold settled, get_init, answer_of. now rewrite Hsvc, Hparse.
  - intros start end_ Hs He Hsvc. rewrite queryRange_run by assumption. cbn [fst].
    unfold settled, get_init, answer_of. now rewrite Hsvc, Hparse.
  - intros e He. pose proof (parseLogs_throws response e He) as Hn.
    split; [exact Hn|]. intros g ->. destruct Hn as [msg [H|H]]; discriminate H.
Qed.

Lemma parse_option_errors_are_not_wrapped_witness :
  fst (Read.query
         (fun _ _ => Normal (response_of "streams"
                               [VObj [("values", VArr [VArr [VStr "soon"; VStr "x"]])]]))
         [] (VStr "{job}") [("parse", VBool true)] (mkWorld ∅ [])) =
    Throw (RangeError "Invalid time value").
Proof.
  exact (proj1 (parse_option_errors_are_not_wrapped
                  (fun _ _ => Normal (response_of "streams"
                                        [VObj [("values", VArr [VArr [VStr "soon"; VStr "x"]])]]))
                  [] (VStr "{job}") [("parse", VBool true)] (mkWorld ∅ [])
                  (response_of "streams"
                     [VObj [("values", VArr [VArr [VStr "soon"; VStr "x"]])]])
                  eq_refl eq_refl) eq_refl).
Defined.

(** ** The "streams" branch of [parseLogs] *)

(** An element of a "streams" result: its label set and, when it has one,
    its sequence of entries. *)
Definition stream_value (s : jsval * option (list jsval)) : jsval :=
  VObj [("stream", fst s);
        ("values", match snd s with Some entries => VArr entries | None => VUndefined end)].

(** The entries with at least two elements of the elements that have
    entries, each with the label set of its element. *)
Definition stream_pairs (s : jsval * option (list jsval)) : list (jsval * jsval) :=
  (fun pair => (labels_of (fst s), pair)) <$> List.filter is_pair (default [] (snd s)).

Lemma parse_stream_pairs s logs :
  Forall dated (stream_pairs s) ->
  exists rs,
    Loki.parse_stream (stream_value s) logs = Normal (logs ++ rs) /\
    Forall2 record_for (stream_pairs s) rs.
Proof.
  intros Hdated. unfold Loki.parse_stream, stream_pairs in *.
  destruct s as [labels [entries|]];
    cbn [stream_value fst snd Prop_access.get Prop_access.own String.eqb Ascii.eqb Bool.eqb
         mbind completion_bind JS.ToBoolean negb call_forEach default] in *.
  - now apply each_entries.
  - exists []. split; [now rewrite app_nil_r|constructor].
Qed.

Lemma each_streams streams : forall logs,
  Forall dated (flat_map stream_pairs streams) ->
  exists rs,
    each Loki.parse_stream (stream_value <$> streams) logs = Normal (logs ++ rs) /\
    Forall2 record_for (flat_map stream_pairs streams) rs.
Proof.
  induction streams as [|s streams IH]; intros logs Hdated.
  - exists []. split; [cbn; now rewrite app_nil_r|constructor].
  - cbn [flat_map fmap list_fmap each] in *.
    apply Forall_app in Hdated as [Hs Hrest].
    destruct (parse_stream_pairs s logs Hs) as (rs1 & -> & Hrs1).
    next.
    destruct (IH (logs ++ rs1) Hrest) as (rs2 & -> & Hrs2).
    exists (rs1 ++ rs2). split; [now rewrite <- app_assoc|now apply Forall2_app].
Qed.

(** X8.  In the "streams" branch, an element without a values sequence
    gives no record, and an element with one gives one record per entry
    that is a sequence of at least two elements, in order, the other
    entries being skipped; the record keeps the timestamp as it came,
    has the message decoded as JSON when it is JSON and as it came
    otherwise, and has the [stream] of the element as label set, or [{}]
    when that is falsy.  This holds when the timestamp of every such
    entry gives a date in the range of Date. *)
Theorem parseLogs_streams_records (streams : list (jsval * option (list jsval))) :
  Forall dated (flat_map stream_pairs streams) ->
  exists records,
    Loki.parseLogs (response_of "streams" (stream_value <$> streams)) = Normal records /\
    Forall2 record_for (flat_map stream_pairs streams) records /\
    Forall2 (fun lp r =>
               Log.labels r = fst lp /\
               Log.timestamp r = Prop_access.index
                                   (match snd lp with VArr elems => elems | _ => [] end) 0 /\
               let message := Prop_access.index
                                (match snd lp with VArr elems => elems | _ => [] end) 1 in
               Log.message r = default message (JS.JSON_parse message))
            (flat_map stream_pairs streams) records.
Proof.
  intros Hdated.
  destruct (each_streams streams [] Hdated) as (rs & Hrun & Hrs).
  exists rs. split; [|split; [exact Hrs|]].
  - unfold Loki.parseLogs, response_of.
    cbn [Prop_access.get_opt Prop_access.get Prop_access.own String.eqb Ascii.eqb Bool.eqb
         mbind completion_bind JS.ToBoolean negb JS.is_string call_forEach].
    exact Hrun.
  - eapply Forall2_impl; [exact Hrs|].
    intros [labels pair] r Hr. unfold record_for, record_of in Hr. cbn [fst snd] in *.
    destruct pair as [| | | | |elems| | |]; try discriminate Hr.
    destruct elems as [|timestampNs [|message elems]]; try discriminate Hr.
    destruct (JS.time_value _) as [t|]; [|discriminate Hr].
    cbn in Hr. inversion Hr; subst. cbn. auto.
Qed.

Lemma parseLogs_streams_records_witness :
  exists records,
    Loki.parseLogs
      (response_of "streams"
         (stream_value <$>
            [(VObj [("job", VStr "api")],
              Some [VArr [VStr "1000000"; VStr "true"]; VStr "junk"; VArr [VStr "7"]]);
             (VNull, None);
             (VNull, Some [VArr [VStr "2000000"; VStr "plain"; VNum 3]])])) = Normal records /\
    length records = 2%nat.
Proof.
  assert (Hdated : Forall dated
            (flat_map stream_pairs
               [(VObj [("job", VStr "api")],
                 Some [VArr [VStr "1000000"; VStr "true"]; VStr "junk"; VArr [VStr "7"]]);
                (VNull, None);
                (VNull, Some [VArr [VStr "2000000"; VStr "plain"; VNum 3]])]))
    by (repeat constructor; vm_compute; eauto).
  destruct (parseLogs_streams_records _ Hdated) as (records & Hrun & Hrecords & _).
  exists records. split; [exact Hrun|].
  symmetry. exact (Forall2_length _ _ _ Hrecords).
Defined.

(** ** [parseLogs] over a longer result *)

(** A callback either appends some records to whatever it is given, or
    throws whatever it is given. *)
Definition appends (f : list LogRecord -> completion (list LogRecord)) : Prop :=
  (exists rs, forall logs, f logs = Normal (logs ++ rs)) \/
  (exists e, forall logs, f logs = Throw e).

Lemma parse_entry_appends owner key entry : appends (Loki.parse_entry owner key entry).
Proof.
  unfold appends, Loki.parse_entry.
  destruct entry; try (left; exists []; intros; now rewrite app_nil_r).
  destruct (length elems <? 2)%nat; [left; exists []; intros; now rewrite app_nil_r|].
  unfold toISOString. destruct (JS.time_value (JS.new_Date _)) as [t|].
  - destruct (Prop_access.get owner key) as [labels|e].
    + left. eexists. intros logs. next. reflexivity.
    + right. exists e. intros logs. reflexivity.
  - right. eexists. intros logs. reflexivity.
Qed.

Lemma each_appends f elems : (forall x, appends (f x)) -> appends (each f elems).
Proof.
  intros Hf. induction elems as [|x elems IH].
  - left. exists []. intros logs. cbn. now rewrite app_nil_r.
  - destruct (Hf x) as [(rs1 & H1)|(e & H1)].
    + destruct IH as [(rs2 & H2)|(e & H2)].
      * left. exists (rs1 ++ rs2). intros logs. cbn [each]. rewrite H1. next.
        rewrite H2. now rewrite <- app_assoc.
      * right. exists e. intros logs. cbn [each]. rewrite H1. next. apply H2.
    + right. exists e. intros logs. cbn [each]. now rewrite H1.
Qed.

Lemma call_forEach_appends a f : (forall x, appends (f x)) -> appends (call_forEach a f).
Proof.
  intros Hf. destruct a; try (right; eexists; intros; reflexivity).
  now apply each_appends.
Qed.

Lemma parse_stream_appends stream : appends (Loki.parse_stream stream).
Proof.
  unfold Loki.parse_stream.
  destruct (Prop_access.get stream "values") as [values|e]; next.
  - destruct (JS.ToBoolean values); cbn [negb].
    + exact (call_forEach_appends values _ (parse_entry_appends stream "stream")).
    + left. exists []. intros logs. now rewrite app_nil_r.
  - right. exists e. intros logs. reflexivity.
Qed.

Lemma parse_bucket_appends series bucket : appends (Loki.parse_bucket series bucket).
Proof.
  unfold Loki.parse_bucket.
  destruct (Prop_access.second bucket) as [logEntries|e].
  - next. apply each_appends. intros x. apply parse_entry_appends.
  - right. exists e. intros logs. reflexivity.
Qed.

Lemma parse_series_appends series : appends (Loki.parse_series series).
Proof.
  unfold Loki.parse_series.
  destruct (Prop_access.get series "values") as [values|e]; next.
  - destruct (JS.ToBoolean values); cbn [negb].
    + exact (call_forEach_appends values _ (parse_bucket_appends series)).
    + left. exists []. intros logs. now rewrite app_nil_r.
  - right. exists e. intros logs. reflexivity.
Qed.

Lemma each_app f a : forall b logs,
  each f (a ++ b) logs = each f a logs ≫= each f b.
Proof.
  induction a as [|x a IH]; intros b logs; [reflexivity|].
  cbn [app each]. destruct (f x logs) as [logs1|e]; next; [apply IH|reflexivity].
Qed.

Lemma each_concat f a b :
  (forall x, appends (f x)) ->
  each f (a ++ b) [] =
    match each f a [], each f b [] with
    | Normal la, Normal lb => Normal (la ++ lb)
    | Normal _, Throw e => Throw e
    | Throw e, _ => Throw e
    end.
Proof.
  intros Hf. rewrite each_app.
  destruct (each f a []) as [la|e]; next; [|reflexivity].
  destruct (each_appends f b Hf) as [(rs & H)|(e & H)]; rewrite !H; reflexivity.
Qed.

Lemma parseLogs_response_of t elems :
  Loki.parseLogs (response_of t elems) =
    if String.eqb t "streams" then each Loki.parse_stream elems []
    else if String.eqb t "matrix" then each Loki.parse_series elems []
    else Normal [].
Proof.
  unfold Loki.parseLogs, response_of.
  cbn [Prop_access.get_opt Prop_access.get Prop_access.own String.eqb Ascii.eqb Bool.eqb
       mbind completion_bind JS.ToBoolean negb JS.is_string call_forEach].
  reflexivity.
Qed.

(** X9.  [parseLogs] works element by element and in order: the records
    of a result that is the concatenation of two results of the same type
    are the records of the first followed by the records of the second,
    and when either of the two throws, the whole throws that error (the
    one of the first when both do). *)
Theorem parseLogs_concatenates (t : string) (a b : list jsval) :
  Loki.parseLogs (response_of t (a ++ b)) =
    match Loki.parseLogs (response_of t a), Loki.parseLogs (response_of t b) with
    | Normal la, Normal lb => Normal (la ++ lb)
    | Normal _, Throw e => Throw e
    | Throw e, _ => Throw e
    end.
Proof.
  rewrite !parseLogs_response_of.
  destruct (String.eqb t "streams").
  - apply each_concat. exact parse_stream_appends.
  - destruct (String.eqb t "matrix"); [|reflexivity].
    apply each_concat. exact parse_series_appends.
Qed.

(** ** [parseLogs] on a response of another shape *)

(** A response with any value as result type and as result. *)
Definition raw_response (resultType result : jsval) : jsval :=
  VObj [("response", VObj [("data", VObj [("resultType", resultType); ("result", result)])])].

(** X10.  For the result types "streams" and "matrix", [parseLogs] throws
    a TypeError when the result is truthy but not an array, when an
    element of the result is null or undefined, and when the [values] of
    an element are truthy but not an array; the records of the elements
    before that one are not returned. *)
Theorem parseLogs_throws_on_other_shapes (t : string) :
  t = "streams" \/ t = "matrix" ->
  (forall result,
     JS.ToBoolean result = true -> JS.isArray result = false ->
     exists msg, Loki.parseLogs (raw_response (VStr t) result) = Throw (TypeError msg)) /\
  (forall before records element rest,
     Loki.parseLogs (response_of t before) = Normal records ->
     element = VNull \/ element = VUndefined ->
     exists msg,
       Loki.parseLogs (response_of t (before ++ element :: rest)) = Throw (TypeError msg)) /\
  (forall before records props rest,
     Loki.parseLogs (response_of t before) = Normal records ->
     JS.ToBoolean (Prop_access.own props "values") = true ->
     JS.isArray (Prop_access.own props "values") = false ->
     exists msg,
       Loki.parseLogs (response_of t (before ++ VObj props :: rest)) = Throw (TypeError msg)).
Proof.
  intros Ht.
  assert (Hhead : forall element rest msg,
            (forall logs, Loki.parse_stream element logs = Throw (TypeError msg)) ->
            (forall logs, Loki.parse_series element logs = Throw (TypeError msg)) ->
            Loki.parseLogs (response_of t (element :: rest)) = Throw (TypeError msg)).
  { intros element rest msg Hs Hm. rewrite parseLogs_response_of.
    destruct Ht as [-> | ->]; cbn [String.eqb Ascii.eqb Bool.eqb each].
    - now rewrite Hs.
    - now rewrite Hm. }
  split; [|split].
  - intros result Htruthy Harray. unfold Loki.parseLogs, raw_response.
    cbn [Prop_access.get_opt Prop_access.get Prop_access.own String.eqb Ascii.eqb Bool.eqb
         mbind completion_bind].
    rewrite Htruthy. cbn [negb JS.is_string].
    exists "forEach is not a function".
    destruct Ht as [-> | ->]; cbn [String.eqb Ascii.eqb Bool.eqb];
      destruct result; try reflexivity; discriminate Harray.
  - intros before records element rest Hbefore Helement.
    assert (exists msg, Loki.parseLogs (response_of t (element :: rest)) = Throw (TypeError msg))
      as [msg Hrun].
    { destruct Helement as [-> | ->]; eexists; apply Hhead; intros logs; reflexivity. }
    exists msg. rewrite parseLogs_concatenates, Hbefore, Hrun. reflexivity.
  - intros before records props rest Hbefore Htruthy Harray.
    exists "forEach is not a function".
    rewrite parseLogs_concatenates, Hbefore.
    rewrite (Hhead (VObj props) rest "forEach is not a function"); [reflexivity| |];
      intros logs; unfold Loki.parse_stream, Loki.parse_series;
      cbn [Prop_access.get mbind completion_bind]; rewrite Htruthy; cbn [negb];
      destruct (Prop_access.own props "values"); try reflexivity; discriminate Harray.
Qed.

Lemma parseLogs_throws_on_other_shapes_witness :
  exists msg,
    Loki.parseLogs (raw_response (VStr "streams") (VObj [("status", VStr "success")])) =
      Throw (TypeError msg).
Proof.
  exact (proj1 (parseLogs_throws_on_other_shapes "streams" (or_introl eq_refl))
           (VObj [("status", VStr "success")]) eq_refl eq_refl).
Defined.

(** ** The headers of [push] *)

(** The value of an option when it is truthy. *)
Definition when_truthy (options : object) (k : string) : jsval :=
  if JS.ToBoolean (Prop_access.own options k) then Prop_access.own options k
  else VUndefined.

(** X11.  The headers [Loki.headers] makes for [push] hold exactly the
    truthy ones of four options: [orgId] as X-Scope-OrgID, [async] as
    X-Async-Insert, and, crosswise, [fpLimit] as X-Ttl-Days and [ttlDays]
    as X-FP-LIMIT.  There is no other header, no header twice, and no
    header with a falsy value. *)
Theorem headers_carry_truthy_options (options : object) :
  let headers := Loki.headers options in
  Prop_access.own headers "X-Scope-OrgID" = when_truthy options "orgId" /\
  Prop_access.own headers "X-Async-Insert" = when_truthy options "async" /\
  Prop_access.own headers "X-Ttl-Days" = when_truthy options "fpLimit" /\
  Prop_access.own headers "X-FP-LIMIT" = when_truthy options "ttlDays" /\
  Forall (fun header =>
            In (fst header) ["X-Scope-OrgID"; "X-Async-Insert"; "X-Ttl-Days"; "X-FP-LIMIT"] /\
            JS.ToBoolean (snd header) = true) headers /\
  NoDup (fst <$> headers).
Proof.
  cbv zeta. unfold Loki.headers, set_if, when_truthy.
  destruct (JS.ToBoolean (Prop_access.own options "orgId")) eqn:H1,
           (JS.ToBoolean (Prop_access.own options "async")) eqn:H2,
           (JS.ToBoolean (Prop_access.own options "fpLimit")) eqn:H3,
           (JS.ToBoolean (Prop_access.own options "ttlDays")) eqn:H4;
    cbv zeta;
    cbn [JS.define_prop JS.replace_prop JS.array_index JS.insert_index app
         String.eqb Ascii.eqb Bool.eqb Prop_access.own fmap list_fmap fst snd];
    (repeat split;
     [repeat (constructor; [split; [cbn; tauto|assumption]|]); constructor
     |apply (bool_decide_unpack _); vm_compute; exact I]).
Qed.

(** ** [push] on an array with an element that is no buffer *)

Lemma every_stops ls : forall bad rest h tr payload,
  Forall (fun l => is_Some (h !! l)) ls ->
  instanceof_Stream h bad = false ->
  Loki.every ((VRef <$> ls) ++ bad :: rest) payload (mkWorld h tr) =
    (Normal (false, payload ++ omap (contribution h) ls),
     mkWorld h (tr ++ (Collect <$> List.filter (pending h) ls))).
Proof.
  induction ls as [|l ls IH]; intros bad rest h tr payload Hall Hbad.
  - cbn [fmap list_fmap app Loki.every].
    erewrite bind_normal by (apply check_other; exact Hbad).
    cbn. now rewrite !app_nil_r.
  - inversion Hall as [|? ? Hl Hrest]; subst.
    cbn [fmap list_fmap app Loki.every].
    erewrite bind_normal by (apply check_instance; exact Hl).
    cbn [JS.ToBoolean]. rewrite IH by assumption.
    cbn [omap list_omap List.filter].
    destruct (contribution h l), (pending h l); cbn [option_list];
      rewrite <- ?app_assoc; reflexivity.
Qed.

(** X12.  The validation of [push] and the collection of the payload are
    one pass: on an array whose first element that is not a Stream
    instance comes after the buffers [ls], [push] has called [collect()]
    on those of [ls] that have a pending entry, in order, before it throws
    its validation error; it looks at nothing after that element, makes no
    request and finalizes nothing. *)
Theorem push_collects_before_it_rejects
  (svc : service) (h : gmap loc Models.Stream) (options : object)
  (ls : list loc) (bad : jsval) (rest : list jsval) :
  Forall (fun l => is_Some (h !! l)) ls ->
  instanceof_Stream h bad = false ->
  Loki.push svc (VArr ((VRef <$> ls) ++ bad :: rest)) options (mkWorld h []) =
    (Throw (Gigapipe (mkGigapipeError "Streams must be an array of Stream instances"
                        VUndefined)),
     mkWorld h (Collect <$> List.filter (pending h) ls)).
Proof.
  intros Hall Hbad. unfold Loki.push.
  erewrite bind_normal by (apply every_stops; assumption).
  reflexivity.
Qed.

Lemma push_collects_before_it_rejects_witness :
  Loki.push (fun _ _ => Normal VNull) (VArr [VRef 2; VRef 1; VNull; VRef 1]) []
    (mkWorld demo_heap []) =
    (Throw (Gigapipe (mkGigapipeError "Streams must be an array of Stream instances"
                        VUndefined)),
     mkWorld demo_heap [Collect 1%nat]).
Proof.
  assert (Hall : Forall (fun l => is_Some (demo_heap !! l)) [2; 1]%nat)
    by (repeat constructor; vm_compute; eauto).
  exact (push_collects_before_it_rejects (fun _ _ => Normal VNull) demo_heap []
           [2; 1]%nat VNull [VRef 1] Hall eq_refl).
Defined.

(** ** The earlier client and the reader *)

Lemma headers_agree options :
  JS.ToBoolean (Prop_access.own options "async") = false ->
  JS.ToBoolean (Prop_access.own options "fpLimit") = false ->
  JS.ToBoolean (Prop_access.own options "ttlDays") = false ->
  Loki.headers options = Read.headers options.
Proof.
  intros Ha Hf Ht. unfold Loki.headers, Read.headers, set_if. now rewrite Ha, Hf, Ht.
Qed.

Lemma legacy_get_request svc options url prefix :
  Loki.headers options = Read.headers options ->
  Legacy.get_request svc options url prefix = Read.get_request svc options url prefix.
Proof. intros H. unfold Legacy.get_request, Read.get_request. now rewrite H. Qed.

(** X13.  The read operations of the earlier client, which take the
    headers and the request parameters from one options object, do what
    the operations of a reader do that is made with that object and is
    given it again as query options, whenever none of the options [async],
    [fpLimit] and [ttlDays] is truthy: same outcome, same request. *)
Theorem earlier_client_agrees_with_reader (svc : service) (options : object) :
  JS.ToBoolean (Prop_access.own options "async") = false ->
  JS.ToBoolean (Prop_access.own options "fpLimit") = false ->
  JS.ToBoolean (Prop_access.own options "ttlDays") = false ->
  (forall query w,
     Legacy.query svc query options w = Read.query svc options query options w) /\
  (forall query start end_ w,
     Legacy.queryRange svc query start end_ options w =
       Read.queryRange svc options query start end_ options w) /\
  (forall w, Legacy.labels svc options w = Read.labels svc options options w) /\
  (forall labelName w,
     Legacy.labelValues svc labelName options w =
       Read.labelValues svc options labelName options w) /\
  (forall match_ w,
     Legacy.series svc match_ options w = Read.series svc options match_ options w).
Proof.
  intros Ha Hf Ht. pose proof (headers_agree options Ha Hf Ht) as Hh.
  split; [|split; [|split; [|split]]].
  - intros query w. unfold Legacy.query, Read.query.
    destruct (JS.ToBoolean query); [|reflexivity]. cbn [negb]. cbv zeta.
    now rewrite legacy_get_request.
  - intros query start end_ w. unfold Legacy.queryRange, Read.queryRange.
    destruct (JS.ToBoolean query); [|reflexivity].
    destruct (JS.ToBoolean start); [|reflexivity].
    destruct (JS.ToBoolean end_); [|reflexivity]. cbn [negb orb]. cbv zeta.
    now rewrite legacy_get_request.
  - intros w. unfold Legacy.labels, Read.labels. cbv zeta.
    now rewrite legacy_get_request.
  - intros labelName w. unfold Legacy.labelValues, Read.labelValues.
    destruct (JS.ToBoolean labelName); [|reflexivity]. cbn [negb]. cbv zeta.
    now rewrite legacy_get_request.
  - intros match_ w. unfold Legacy.series, Read.series, Read.series_params.
    destruct (JS.ToBoolean match_); [|reflexivity]. cbn [negb]. cbv zeta.
    destruct match_; try reflexivity;
      unfold lift, mbind, M_bind, mret, M_ret; now rewrite legacy_get_request.
Qed.

Lemma earlier_client_agrees_with_reader_witness :
  Legacy.labels (fun _ _ => Normal VNull) [("orgId", VStr "tenant"); ("start", VNum 1)]
    (mkWorld ∅ []) =
  Read.labels (fun _ _ => Normal VNull) [("orgId", VStr "tenant"); ("start", VNum 1)]
    [("orgId", VStr "tenant"); ("start", VNum 1)] (mkWorld ∅ []).
Proof.
  exact (proj1 (proj2 (proj2 (earlier_client_agrees_with_reader (fun _ _ => Normal VNull)
                                [("orgId", VStr "tenant"); ("start", VNum 1)]
                                eq_refl eq_refl eq_refl))) (mkWorld ∅ [])).
Defined.

(** ** The label set of a record *)



